(** * ZRTPCPP: the Skein-384 provider binding and the user callback proxy

    A shallow embedding of

    - [zrtp/crypto/botan/skein384.cpp]: the one-shot and the context based
      Skein-512(384) functions built on [Botan::HashFunction];
    - [src/libzrtpcpp/ZrtpUserCallback.h]: the default control methods of
      [ZrtpUserCallback], which forward to a [ZrtpQueue];
    - the go-clear branch of the protocol state machine those methods
      forward to, as the specification describes it.

    C++ undefined behaviour (null dereference, out-of-range access, flowing
    off the end of a value-returning function) is made explicit as a
    [fault], so that "the code dereferences a null handle" is a statement
    about the value a function evaluates to. *)

From Stdlib.Strings Require Import Byte.
From stdpp Require Import gmap list strings.

(** ** Outcomes and the state-and-fault monad *)

Inductive fault : Set :=
| NullDereference   (* [p->m] with [p == nullptr] *)
| DanglingPointer   (* [p->m] with [p] not (or no longer) pointing to an object *)
| OutOfBounds       (* read or write past a buffer, [v[i]] with [i >= v.size()] *)
| MissingReturn.    (* control reaches the end of a value-returning function *)

Inductive outcome (A : Type) : Type :=
| Done (a : A)
| Undefined (f : fault).
Arguments Done {A} a.
Arguments Undefined {A} f.

#[global] Instance outcome_ret : MRet outcome := @Done.
#[global] Instance outcome_bind : MBind outcome := λ A B k o,
  match o with
  | Done a => k a
  | Undefined f => Undefined f
  end.

#[global] Instance fault_eq_dec : EqDecision fault.
Proof. solve_decision. Defined.

(** A computation over a store [S]: it either completes with a value and a
    new store, or runs into undefined behaviour. *)
Record M (S A : Type) : Type := MkM { run : S → outcome (A * S) }.
Arguments MkM {S A} run.
Arguments run {S A} m σ.

#[global] Instance M_ret {S} : MRet (M S) := λ A a, MkM (λ σ, Done (a, σ)).
#[global] Instance M_bind {S} : MBind (M S) := λ A B k m,
  MkM (λ σ, match run m σ with
            | Done (a, σ') => run (k a) σ'
            | Undefined f => Undefined f
            end).

Definition ub {S A} (f : fault) : M S A := MkM (λ _, Undefined f).
Definition lift {S A} (o : outcome A) : M S A :=
  MkM (λ σ, match o with Done a => Done (a, σ) | Undefined f => Undefined f end).

(** [for (size_t i = 0, size = n; i < size; i++) body(i)], the loop of the two
    multi-segment functions, as an iteration over the indices [0 .. n-1]. *)
Fixpoint for_each {S} (idx : list nat) (body : nat → M S unit) : M S unit :=
  match idx with
  | [] => mret tt
  | i :: idx' => body i;; for_each idx' body
  end.

Fixpoint fold_each {A} (idx : list nat) (body : A → nat → outcome A) (a : A)
  : outcome A :=
  match idx with
  | [] => Done a
  | i :: idx' => a' ← body a i; fold_each idx' body a'
  end.

(** ** Memory seen through raw pointers *)

(** A [const uint8_t*] is modelled by the bytes that can be read from it on;
    reading [n] of them past the end of the buffer is out of bounds. The
    [uint64_t] lengths are only ever passed on, never computed with, so they
    are natural numbers. *)
Definition read_bytes (p : list byte) (n : nat) : outcome (list byte) :=
  if decide (n ≤ length p) then Done (take n p) else Undefined OutOfBounds.

(** A [uint8_t*] output buffer: writing [d] overwrites its first
    [length d] bytes. *)
Definition write_bytes (buf d : list byte) : outcome (list byte) :=
  if decide (length d ≤ length buf) then Done (d ++ drop (length d) buf)
  else Undefined OutOfBounds.

(** [v[i]] on a [std::vector]. *)
Definition index {A} (v : list A) (i : nat) : outcome A :=
  match v !! i with
  | Some x => Done x
  | None => Undefined OutOfBounds
  end.

(** ** [Botan::HashFunction]

    The interface the binding programs against, for the instance obtained by
    [Botan::HashFunction::create("Skein-512(384)")]. The factory is taken to
    deliver a hash object, as the one-shot functions take it: they use its
    result unchecked. [final] returns the digest written to the output pointer
    together with the state it leaves behind. *)
Class HashFunction : Type := {
  hash_state : Type;
  create : hash_state;
  update : hash_state → list byte → hash_state;
  final : hash_state → list byte * hash_state;
  clear : hash_state → hash_state
}.

(** The contract of the Botan interface: input is absorbed as a stream,
    [clear] and [final] leave the object as freshly created, and the
    Skein-512(384) output is 384 bits long. *)
Class HashFunctionLaws (HF : HashFunction) : Prop := {
  update_nil h : update h [] = h;
  update_app h a b : update (update h a) b = update h (a ++ b);
  clear_create h : clear h = create;
  final_create h : (final h).2 = create;
  output_length h : length (final h).1 = 48
}.

(** Modelled from the spec: [SHA384_DIGEST_SIZE] comes from a header of the
    SHA-384 binding; the digest is 384 bits, 48 bytes. *)
Definition SHA384_DIGEST_SIZE : nat := 48.

Module zrtp.
(** Modelled from the spec: [zrtp::RetainedSecArray] is declared elsewhere;
    the binding uses its storage ([data()]) and its size field ([size(n)]). *)
Record RetainedSecArray : Type := MkRetainedSecArray {
  data : list byte;
  size : nat
}.
End zrtp.

(** ** [skein384.cpp] *)

Section skein384.
Context {HF : HashFunction}.

(** [struct hashCtx { std::unique_ptr<Botan::HashFunction> hash; }]; an empty
    [unique_ptr] is [None]. *)
Record hashCtx : Type := MkHashCtx { hash : option hash_state }.

(** Context objects live on the free store. A [void*] handle is [None] for
    [nullptr] and [Some l] for the address [l]. *)
Abbreviation heap := (gmap positive hashCtx).
Abbreviation handle := (option positive).

(** [hd-> ...]: the object a [hashCtx*] points to, with its address. *)
Definition deref (hd : handle) : M heap (positive * hashCtx) :=
  MkM (λ σ, match hd with
            | None => Undefined NullDereference
            | Some l => match σ !! l with
                        | Some c => Done ((l, c), σ)
                        | None => Undefined DanglingPointer
                        end
            end).

(** [... hash-> ...]: the hash object an [unique_ptr] owns. *)
Definition owned (p : option hash_state) : M heap hash_state :=
  match p with
  | Some h => mret h
  | None => ub NullDereference
  end.

Definition assign (l : positive) (p : option hash_state) : M heap unit :=
  MkM (λ σ, Done (tt, <[l := MkHashCtx p]> σ)).

Definition free (l : positive) : M heap unit :=
  MkM (λ σ, Done (tt, delete l σ)).

(** [hd->hash->update(p, n)]: the object expression is evaluated before the
    arguments, so a null [hd] is reached before [data[i]] or [dataLength[i]]
    is. *)
Definition hash_update (hd : handle) (p : outcome (list byte)) (n : outcome nat)
  : M heap unit :=
  '(l, c) ← deref hd;
  h ← owned (hash c);
  p ← lift p;
  n ← lift n;
  bytes ← lift (read_bytes p n);
  assign l (Some (update h bytes)).

(** [hd->hash->final(out)]: the digest is written to [out] and the hash
    object is left in the state [final] puts it in. *)
Definition hash_final (hd : handle) (out : list byte) : M heap (list byte) :=
  '(l, c) ← deref hd;
  h ← owned (hash c);
  out' ← lift (write_bytes out (final h).1);
  assign l (Some (final h).2);;
  mret out'.

(** [hash->update(p, n)] on the hash object of a local [unique_ptr]. *)
Definition local_update (h : hash_state) (p : outcome (list byte)) (n : outcome nat)
  : outcome hash_state :=
  p ← p;
  n ← n;
  bytes ← read_bytes p n;
  Done (update h bytes).

(** [void skein384(const uint8_t *data, uint64_t dataLength, uint8_t *digest)];
    the result is the contents of [digest] afterwards. *)
Definition skein384 (data : list byte) (dataLength : nat) (digest : list byte)
  : outcome (list byte) :=
  let h := create in
  h ← local_update h (Done data) (Done dataLength);
  write_bytes digest (final h).1.

(** [void skein384(const std::vector<const uint8_t*>& data,
                   const std::vector<uint64_t>& dataLength, uint8_t *digest)] *)
Definition skein384_segments (data : list (list byte)) (dataLength : list nat)
    (digest : list byte) : outcome (list byte) :=
  let h := create in
  h ← fold_each (seq 0 (length data))
        (λ h i, local_update h (index data i) (index dataLength i)) h;
  write_bytes digest (final h).1.

(** [void* createSkein384Context()] *)
Definition createSkein384Context : M heap handle :=
  MkM (λ σ, let ctx := fresh (dom σ) in
            Done (Some ctx, <[ctx := MkHashCtx (Some create)]> σ)).

(** [void closeSkein384Context(void* ctx, zrtp::RetainedSecArray & digestOut)];
    the value is [digestOut] afterwards. *)
Definition closeSkein384Context (ctx : handle) (digestOut : zrtp.RetainedSecArray)
  : M heap zrtp.RetainedSecArray :=
  let hd := ctx in
  digestOut ← (if hd is Some _ then
                 d ← hash_final hd (zrtp.data digestOut);
                 mret (zrtp.MkRetainedSecArray d SHA384_DIGEST_SIZE)
               else mret digestOut);
  '(l, _) ← deref hd;
  assign l None;;
  free l;;
  mret digestOut.

(** [void* initializeSkein384Context(void* ctx)] *)
Definition initializeSkein384Context (ctx : handle) : M heap handle :=
  let hd := ctx in
  (if hd is Some _ then
     '(l, c) ← deref hd;
     match hash c with
     | None => assign l (Some create)
     | Some h => assign l (Some (clear h))
     end
   else mret tt);;
  mret hd.

(** [void finalizeSkein384Context(void* ctx, zrtp::RetainedSecArray & digestOut)] *)
Definition finalizeSkein384Context (ctx : handle) (digestOut : zrtp.RetainedSecArray)
  : M heap zrtp.RetainedSecArray :=
  let hd := ctx in
  d ← hash_final hd (zrtp.data digestOut);
  mret (zrtp.MkRetainedSecArray d SHA384_DIGEST_SIZE).

(** [void skein384Ctx(void* ctx, const uint8_t* data, uint64_t dataLength)] *)
Definition skein384Ctx (ctx : handle) (data : list byte) (dataLength : nat)
  : M heap unit :=
  let hd := ctx in
  hash_update hd (Done data) (Done dataLength).

(** [void skein384Ctx(void* ctx, const std::vector<const uint8_t*>& data,
                      const std::vector<uint64_t>& dataLength)] *)
Definition skein384Ctx_segments (ctx : handle) (data : list (list byte))
    (dataLength : list nat) : M heap unit :=
  let hd := ctx in
  for_each (seq 0 (length data))
    (λ i, hash_update hd (index data i) (index dataLength i)).

End skein384.

Abbreviation heap := (gmap positive hashCtx).
Abbreviation handle := (option positive).

(** A small instance of the interface, used to evaluate the binding on
    concrete inputs: the state is the message absorbed so far, the digest its
    first 48 bytes, zero padded. It stands in for Skein only as far as the
    interface contract goes. *)
Definition buffered_hash : HashFunction := {|
  hash_state := list byte;
  create := [];
  update h d := h ++ d;
  final h := (resize 48 x00 h, []);
  clear _ := []
|}.

(** ** [ost::ZrtpQueue]

    The session object the callback class forwards to. Its implementation is
    separate from the header; the proxy methods only need its method table,
    each method a transformer of the queue object's state. A [uint8*] argument
    is the buffer it points to, an [int32] an integer. *)
Module ZrtpQueue.
Class Methods : Type := {
  t : Type;
  setEnableZrtp : bool → t → t;
  SASVerified : t → t;
  resetSASVerified : t → t;
  goClearOk : t → t;
  requestGoClear : t → t;
  setSigsSecret : list byte → t → t;
  setSrtpsSecret : list byte → t → t;
  setOtherSecret : list byte → Z → t → t;
  getHelloHash : t → string * t;
  getSasData : t → string * t
}.
End ZrtpQueue.

(** ** [ZrtpUserCallback.h] *)
Module ZrtpUserCallback.
Section methods.
Context {Q : ZrtpQueue.Methods}.

(** The one data member: [ost::ZrtpQueue* zrtpQueue], a raw pointer the
    callback does not own. *)
Record object : Type := MkObject { zrtpQueue : option positive }.

(** Callback objects and queue objects, by address. *)
Record store : Type := MkStore {
  callbacks : gmap positive object;
  queues : gmap positive ZrtpQueue.t
}.

(** [zrtpQueue->m(...)] evaluated inside a member function of the object at
    [this]: the member is read, the pointer is followed, the method runs on
    the queue it points to. *)
Definition call {A} (this : positive) (m : ZrtpQueue.t → A * ZrtpQueue.t)
  : M store A :=
  MkM (λ σ,
    match callbacks σ !! this with
    | None => Undefined DanglingPointer
    | Some self =>
        match zrtpQueue self with
        | None => Undefined NullDereference
        | Some q =>
            match queues σ !! q with
            | None => Undefined DanglingPointer
            | Some s => Done ((m s).1, MkStore (callbacks σ) (<[q := (m s).2]> (queues σ)))
            end
        end
    end).

(** A [void] method of the queue. *)
Definition void (f : ZrtpQueue.t → ZrtpQueue.t) : ZrtpQueue.t → unit * ZrtpQueue.t :=
  λ s, (tt, f s).

(** [ZrtpUserCallback(ost::ZrtpQueue* queue) : zrtpQueue(queue) {}],
    constructing the object at address [this]. *)
Definition constructor (this : positive) (queue : option positive) : M store unit :=
  MkM (λ σ, Done (tt, MkStore (<[this := MkObject queue]> (callbacks σ)) (queues σ))).

(** [virtual ~ZrtpUserCallback() {}]: the body is empty. *)
Definition destructor (this : positive) : M store unit :=
  mret tt.

(** The end of the object's life ([delete cb]): the destructor runs, the
    pointer member has no destructor of its own, the storage is released. *)
Definition destroy (this : positive) : M store unit :=
  MkM (λ σ,
    match callbacks σ !! this with
    | None => Undefined DanglingPointer
    | Some _ =>
        match run (destructor this) σ with
        | Done (_, σ') => Done (tt, MkStore (delete this (callbacks σ')) (queues σ'))
        | Undefined f => Undefined f
        end
    end).

(** [virtual void enableZrtp(bool onOff) { zrtpQueue->setEnableZrtp(onOff); }] *)
Definition enableZrtp (this : positive) (onOff : bool) : M store unit :=
  call this (void (ZrtpQueue.setEnableZrtp onOff)).

(** [virtual void SASVerified() { zrtpQueue->SASVerified(); }] *)
Definition SASVerified (this : positive) : M store unit :=
  call this (void ZrtpQueue.SASVerified).

(** [virtual void resetSASVerified() { zrtpQueue->resetSASVerified(); }] *)
Definition resetSASVerified (this : positive) : M store unit :=
  call this (void ZrtpQueue.resetSASVerified).

(** [virtual void goClearOk() { zrtpQueue->goClearOk(); }] *)
Definition goClearOk (this : positive) : M store unit :=
  call this (void ZrtpQueue.goClearOk).

(** [virtual void requestGoClear() { zrtpQueue->requestGoClear(); }] *)
Definition requestGoClear (this : positive) : M store unit :=
  call this (void ZrtpQueue.requestGoClear).

(** [virtual void setSigsSecret(uint8* data) { zrtpQueue->setSigsSecret(data); }] *)
Definition setSigsSecret (this : positive) (data : list byte) : M store unit :=
  call this (void (ZrtpQueue.setSigsSecret data)).

(** [virtual void setSrtpsSecret(uint8* data) { zrtpQueue->setSrtpsSecret(data); }] *)
Definition setSrtpsSecret (this : positive) (data : list byte) : M store unit :=
  call this (void (ZrtpQueue.setSrtpsSecret data)).

(** [virtual void setOtherSecret(uint8* data, int32 length)
       { zrtpQueue->setOtherSecret(data, length); }] *)
Definition setOtherSecret (this : positive) (data : list byte) (length : Z)
  : M store unit :=
  call this (void (ZrtpQueue.setOtherSecret data length)).

(** [virtual std::string getHelloHash() { zrtpQueue->getHelloHash(); }]: the
    call is an expression statement, its value is dropped, and control then
    reaches the closing brace of a function returning [std::string]. *)
Definition getHelloHash (this : positive) : M store string :=
  call this ZrtpQueue.getHelloHash;;
  ub MissingReturn.

(** [virtual std::string getSasData() { zrtpQueue->getSasData(); }] *)
Definition getSasData (this : positive) : M store string :=
  call this ZrtpQueue.getSasData;;
  ub MissingReturn.

End methods.
End ZrtpUserCallback.

(** ** Host programs over the control methods

    A host drives the session through a sequence of calls to the [void]
    control methods of its callback object. [invoke] is the call through
    [ZrtpUserCallback], [on_queue] the queue method the header names for it. *)
Section host.
Context {Q : ZrtpQueue.Methods}.

Inductive control : Type :=
| EnableZrtp (onOff : bool)
| SasVerified
| ResetSasVerified
| GoClearOk
| RequestGoClear
| SetSigsSecret (data : list byte)
| SetSrtpsSecret (data : list byte)
| SetOtherSecret (data : list byte) (length : Z).

Definition invoke (this : positive) (c : control) : M ZrtpUserCallback.store unit :=
  match c with
  | EnableZrtp onOff => ZrtpUserCallback.enableZrtp this onOff
  | SasVerified => ZrtpUserCallback.SASVerified this
  | ResetSasVerified => ZrtpUserCallback.resetSASVerified this
  | GoClearOk => ZrtpUserCallback.goClearOk this
  | RequestGoClear => ZrtpUserCallback.requestGoClear this
  | SetSigsSecret data => ZrtpUserCallback.setSigsSecret this data
  | SetSrtpsSecret data => ZrtpUserCallback.setSrtpsSecret this data
  | SetOtherSecret data length => ZrtpUserCallback.setOtherSecret this data length
  end.

Definition on_queue (c : control) : ZrtpQueue.t → ZrtpQueue.t :=
  match c with
  | EnableZrtp onOff => ZrtpQueue.setEnableZrtp onOff
  | SasVerified => ZrtpQueue.SASVerified
  | ResetSasVerified => ZrtpQueue.resetSASVerified
  | GoClearOk => ZrtpQueue.goClearOk
  | RequestGoClear => ZrtpQueue.requestGoClear
  | SetSigsSecret data => ZrtpQueue.setSigsSecret data
  | SetSrtpsSecret data => ZrtpQueue.setSrtpsSecret data
  | SetOtherSecret data length => ZrtpQueue.setOtherSecret data length
  end.

Fixpoint invoke_all (this : positive) (cs : list control)
  : M ZrtpUserCallback.store unit :=
  match cs with
  | [] => mret tt
  | c :: cs' => invoke this c;; invoke_all this cs'
  end.

End host.

(** A queue that records the calls made on it, used to evaluate the proxy
    methods on concrete inputs. Its two getters answer ["0"], the value the
    header documents for a session that has not been started. *)
Inductive queue_call : Type :=
| CallSetEnableZrtp (onOff : bool)
| CallSASVerified
| CallResetSASVerified
| CallGoClearOk
| CallRequestGoClear
| CallSetSigsSecret (data : list byte)
| CallSetSrtpsSecret (data : list byte)
| CallSetOtherSecret (data : list byte) (length : Z)
| CallGetHelloHash
| CallGetSasData.

Definition recording_queue : ZrtpQueue.Methods := {|
  ZrtpQueue.t := list queue_call;
  ZrtpQueue.setEnableZrtp onOff s := s ++ [CallSetEnableZrtp onOff];
  ZrtpQueue.SASVerified s := s ++ [CallSASVerified];
  ZrtpQueue.resetSASVerified s := s ++ [CallResetSASVerified];
  ZrtpQueue.goClearOk s := s ++ [CallGoClearOk];
  ZrtpQueue.requestGoClear s := s ++ [CallRequestGoClear];
  ZrtpQueue.setSigsSecret data s := s ++ [CallSetSigsSecret data];
  ZrtpQueue.setSrtpsSecret data s := s ++ [CallSetSrtpsSecret data];
  ZrtpQueue.setOtherSecret data length s := s ++ [CallSetOtherSecret data length];
  ZrtpQueue.getHelloHash s := ("0"%string, s ++ [CallGetHelloHash]);
  ZrtpQueue.getSasData s := ("0"%string, s ++ [CallGetSasData])
|}.

(** ** The go-clear branch of the state machine

    [ZrtpUserCallback::requestGoClear] and [goClearOk] only forward to the
    queue; what happens to media protection is decided by the protocol
    engine behind [ZrtpQueue]. *)
Module GoClear.

(** Modelled from the spec: the states of the ZRTP state machine (section 4.1);
    the engine that implements them is behind [ZrtpQueue]. *)
Inductive state : Set :=
| Idle | DiscoverySent | Committed | KeyAgreeSent | Confirmed
| SecureOn | GoClearRequested | Failed.

(** Modelled from the spec: the part of a Session (section 3) that go-clear
    touches, its current state and its secure-mode flag. *)
Record session : Set := MkSession { current : state; secure : bool }.

(** Modelled from the spec: what reaches one endpoint during go-clear, the two
    host control operations and the two protocol messages from the peer. *)
Inductive event : Set :=
| RequestGoClear      (* host control: requestGoClear() *)
| ConfirmGoClear      (* host control: confirmGoClear(), goClearOk() in the header *)
| GoClearReceived     (* a GoClear message arrives *)
| ClearAckReceived.   (* a ClearAck message arrives *)

(** Modelled from the spec: the messages sent and the host notifications
    emitted on a go-clear transition (sections 3 and 6). *)
Inductive output : Set :=
| SendGoClear
| SendClearAck
| NotifyConfirmGoClear
| NotifySecureOff.

#[global] Instance event_eq_dec : EqDecision event.
Proof. solve_decision. Defined.

(** Modelled from the spec: "SecureOn -> GoClearRequested -> Idle/SecureOn";
    the requester stops secure processing immediately on sending the request,
    the receiver only after the user's explicit confirmation. *)
Definition step (s : session) (e : event) : session * list output :=
  match current s, secure s, e with
  | SecureOn, true, RequestGoClear =>
      (MkSession GoClearRequested false, [SendGoClear; NotifySecureOff])
  | SecureOn, true, GoClearReceived =>
      (MkSession GoClearRequested true, [NotifyConfirmGoClear])
  | GoClearRequested, true, ConfirmGoClear =>
      (MkSession Idle false, [SendClearAck; NotifySecureOff])
  | GoClearRequested, false, ClearAckReceived =>
      (MkSession Idle false, [])
  | _, _, _ => (s, [])
  end.

(** Modelled from the spec: the session after a sequence of events, one
    [step] per event. *)
Definition steps (s : session) (es : list event) : session :=
  foldl (λ s e, (step s e).1) s es.

(** Modelled from the spec: outbound media of an endpoint, protected or in
    clear. *)
Inductive media : Set :=
| Protected (payload : list byte)
| Clear (payload : list byte).

(** Modelled from the spec: "stop emitting protected media" is the secure-mode
    flag being off when a payload is sent. *)
Definition send_media (s : session) (payload : list byte) : media :=
  if secure s then Protected payload else Clear payload.

(** Modelled from the spec: a session that has reached [SecureOn]. *)
Definition secure_on : session := MkSession SecureOn true.

End GoClear.

(** Concrete inputs on which the definitions are evaluated below: a 64-byte
    output array, a heap with one context that has already absorbed a byte,
    and a store with one callback object forwarding to one recording queue. *)
Definition sample_out : zrtp.RetainedSecArray :=
  zrtp.MkRetainedSecArray (replicate 64 xff) 0.

Definition sample_heap : gmap positive (hashCtx (HF := buffered_hash)) :=
  {[ 1%positive := MkHashCtx (HF := buffered_hash) (Some [x2a]) ]}.

Definition sample_store : ZrtpUserCallback.store (Q := recording_queue) :=
  ZrtpUserCallback.MkStore (Q := recording_queue)
    {[ 1%positive := ZrtpUserCallback.MkObject (Some 2%positive) ]}
    {[ 2%positive := [] ]}.

(** * Properties of the Skein-384 binding *)

Lemma buffered_hash_laws : HashFunctionLaws buffered_hash.
Proof.
  split; cbn; intros.
  - apply app_nil_r.
  - symmetry. apply app_assoc.
  - reflexivity.
  - reflexivity.
  - apply length_resize.
Qed.

Section skein384_properties.
Context {HF : HashFunction} {HL : HashFunctionLaws HF}.

Lemma run_hash_update (σ : heap) l h p n :
  σ !! l = Some (MkHashCtx (Some h)) →
  n ≤ length p →
  run (hash_update (Some l) (Done p) (Done n)) σ
  = Done (tt, <[l := MkHashCtx (Some (update h (take n p)))]> σ).
Proof.
  intros Hl Hn. unfold hash_update, read_bytes. cbn. rewrite Hl. cbn.
  destruct (decide (n ≤ length p)); [reflexivity | contradiction].
Qed.

Lemma run_hash_final (σ : heap) l h out :
  σ !! l = Some (MkHashCtx (Some h)) →
  48 ≤ length out →
  run (hash_final (Some l) out) σ
  = Done ((final h).1 ++ drop 48 out, <[l := MkHashCtx (Some create)]> σ).
Proof.
  intros Hl Hn. unfold hash_final, write_bytes. cbn. rewrite Hl. cbn.
  rewrite output_length, final_create.
  destruct (decide (48 ≤ length out)); [reflexivity | contradiction].
Qed.

Lemma run_skein384 p n digest :
  n ≤ length p →
  48 ≤ length digest →
  skein384 p n digest = Done ((final (update create (take n p))).1 ++ drop 48 digest).
Proof.
  intros Hn Hd. unfold skein384, local_update, read_bytes, write_bytes. cbn.
  destruct (decide (n ≤ length p)); [cbn | contradiction].
  rewrite output_length.
  destruct (decide (48 ≤ length digest)); [reflexivity | contradiction].
Qed.

Lemma run_bind {S A B} (m : M S A) (k : A → M S B) σ a σ' :
  run m σ = Done (a, σ') → run (m ≫= k) σ = run (k a) σ'.
Proof. intros Hm. unfold mbind, M_bind. simpl. rewrite Hm. reflexivity. Qed.

Lemma run_createSkein384Context (σ : heap) :
  run createSkein384Context σ
  = Done (Some (fresh (dom σ)), <[fresh (dom σ) := MkHashCtx (Some create)]> σ).
Proof. reflexivity. Qed.

Lemma run_initializeSkein384Context (σ : heap) l c :
  σ !! l = Some c →
  run (initializeSkein384Context (Some l)) σ
  = Done (Some l, <[l := MkHashCtx (Some create)]> σ).
Proof.
  intros Hl. unfold initializeSkein384Context. cbn. rewrite Hl. cbn.
  destruct c as [[h|]]; cbn; [rewrite clear_create|]; reflexivity.
Qed.

Lemma run_finalizeSkein384Context (σ : heap) l h digestOut :
  σ !! l = Some (MkHashCtx (Some h)) →
  48 ≤ length (zrtp.data digestOut) →
  run (finalizeSkein384Context (Some l) digestOut) σ
  = Done (zrtp.MkRetainedSecArray ((final h).1 ++ drop 48 (zrtp.data digestOut))
            SHA384_DIGEST_SIZE,
          <[l := MkHashCtx (Some create)]> σ).
Proof.
  intros Hl Hn. unfold finalizeSkein384Context.
  erewrite run_bind by (apply run_hash_final; eassumption). reflexivity.
Qed.

Lemma run_closeSkein384Context (σ : heap) l h digestOut :
  σ !! l = Some (MkHashCtx (Some h)) →
  48 ≤ length (zrtp.data digestOut) →
  run (closeSkein384Context (Some l) digestOut) σ
  = Done (zrtp.MkRetainedSecArray ((final h).1 ++ drop 48 (zrtp.data digestOut))
            SHA384_DIGEST_SIZE,
          delete l σ).
Proof.
  intros Hl Hn. unfold closeSkein384Context.
  erewrite run_bind; cycle 1.
  { erewrite run_bind by (apply run_hash_final; eassumption). reflexivity. }
  cbn. rewrite lookup_insert_eq. cbn.
  rewrite insert_insert_eq, delete_insert_eq. reflexivity.
Qed.

(** The update-then-finalize sequence on a context holding a hash object. *)
Lemma run_update_finalize (σ : heap) l h p n digestOut :
  σ !! l = Some (MkHashCtx (Some h)) →
  n ≤ length p →
  48 ≤ length (zrtp.data digestOut) →
  run (skein384Ctx (Some l) p n;; finalizeSkein384Context (Some l) digestOut) σ
  = Done (zrtp.MkRetainedSecArray
            ((final (update h (take n p))).1 ++ drop 48 (zrtp.data digestOut))
            SHA384_DIGEST_SIZE,
          <[l := MkHashCtx (Some create)]> σ).
Proof.
  intros Hl Hn Hd. unfold skein384Ctx.
  erewrite run_bind by (apply run_hash_update; eassumption).
  erewrite run_finalizeSkein384Context; [|apply lookup_insert_eq|assumption].
  rewrite insert_insert_eq. reflexivity.
Qed.

(** The loop of the multi-segment functions absorbs the segments in order:
    it leaves the hash object where one [update] with their concatenation
    would. The loop is taken from index [length pre_d] on. *)

Lemma local_update_done h p n :
  n ≤ length p → local_update h (Done p) (Done n) = Done (update h (take n p)).
Proof.
  intros Hn. unfold local_update, read_bytes. cbn.
  destruct (decide (n ≤ length p)); [done | contradiction].
Qed.

Lemma index_middle {A} (pre post : list A) x i :
  i = length pre → index (pre ++ x :: post) i = Done x.
Proof. intros ->. unfold index. by rewrite list_lookup_middle. Qed.

Lemma fold_each_update_from pre_d pre_n data dataLength h :
  length pre_d = length pre_n →
  Forall2 (λ p n, n ≤ length p) data dataLength →
  fold_each (seq (length pre_d) (length data))
    (λ h i, local_update h (index (pre_d ++ data) i) (index (pre_n ++ dataLength) i)) h
  = Done (update h (concat (zip_with take dataLength data))).
Proof.
  intros Hlen Hall. revert pre_d pre_n h Hlen.
  induction Hall as [|p n data dataLength Hn Hall IH]; intros pre_d pre_n h Hlen.
  - cbn. by rewrite update_nil.
  - cbn [length seq fold_each].
    rewrite !index_middle, local_update_done by done.
    specialize (IH (pre_d ++ [p]) (pre_n ++ [n]) (update h (take n p))).
    rewrite !length_app, <- !app_assoc in IH. cbn [length app] in IH.
    rewrite Nat.add_1_r in IH. cbn [mbind outcome_bind]. rewrite IH by lia.
    cbn [zip_with concat]. by rewrite update_app.
Qed.

Lemma run_for_each_update_from (σ : heap) l pre_d pre_n data dataLength h :
  length pre_d = length pre_n →
  Forall2 (λ p n, n ≤ length p) data dataLength →
  σ !! l = Some (MkHashCtx (Some h)) →
  run (for_each (seq (length pre_d) (length data))
         (λ i, hash_update (Some l) (index (pre_d ++ data) i)
                 (index (pre_n ++ dataLength) i))) σ
  = Done (tt, <[l := MkHashCtx (Some (update h (concat (zip_with take dataLength data))))]> σ).
Proof.
  intros Hlen Hall. revert σ pre_d pre_n h Hlen.
  induction Hall as [|p n data dataLength Hn Hall IH]; intros σ pre_d pre_n h Hlen Hl.
  - cbn. rewrite update_nil, insert_id; done.
  - cbn [length seq for_each].
    rewrite !index_middle by done.
    erewrite run_bind by (apply run_hash_update; eassumption).
    specialize (IH (<[l := MkHashCtx (Some (update h (take n p)))]> σ)
                  (pre_d ++ [p]) (pre_n ++ [n]) (update h (take n p))).
    rewrite !length_app, <- !app_assoc in IH. cbn [length app] in IH.
    rewrite Nat.add_1_r in IH. rewrite IH; [|lia|apply lookup_insert_eq].
    cbn [zip_with concat]. by rewrite insert_insert_eq, update_app.
Qed.

(** Segments given with their full lengths. *)
Lemma zip_with_take_lengths (data : list (list byte)) :
  zip_with take (length <$> data) data = data.
Proof.
  induction data as [|p data IH]; cbn; [done|]. by rewrite firstn_all, IH.
Qed.

Lemma Forall2_lengths (data : list (list byte)) :
  Forall2 (λ p n, n ≤ length p) data (length <$> data).
Proof. induction data; constructor; [lia | done]. Qed.

(** The multi-segment one-shot hash is the single-buffer hash of the
    concatenated segments, for any number of segments. *)
Lemma skein384_segments_concat (data : list (list byte)) digest :
  48 ≤ length digest →
  skein384_segments data (length <$> data) digest
  = skein384 (concat data) (length (concat data)) digest
  ∧ skein384 (concat data) (length (concat data)) digest
    = Done ((final (update create (concat data))).1 ++ drop 48 digest).
Proof.
  intros Hd. rewrite run_skein384 by (done || lia). rewrite firstn_all.
  split; [|done]. unfold skein384_segments.
  pose proof (fold_each_update_from [] [] data (length <$> data) create eq_refl
                (Forall2_lengths data)) as Hfold.
  cbn [app length] in Hfold. cbn. rewrite Hfold. cbn.
  rewrite zip_with_take_lengths. unfold write_bytes. rewrite output_length.
  destruct (decide (48 ≤ length digest)); [done | contradiction].
Qed.

(** ** The claims about the binding *)

(** C2, as amended: [finalizeSkein384Context] and the single-buffer
    [skein384Ctx] dereference a null handle whatever their other arguments
    are; the multi-segment [skein384Ctx] dereferences it once per segment, so
    a null handle is dereferenced as soon as there is a segment, and with no
    segment the function returns without touching the handle. None of them
    has a rejecting branch. *)
Theorem null_handle_is_dereferenced
    (digestOut : zrtp.RetainedSecArray) (p : list byte) (n : nat)
    (data : list (list byte)) (dataLength : list nat) (σ : heap) :
  data ≠ [] →
  run (finalizeSkein384Context None digestOut) σ = Undefined NullDereference
  ∧ run (skein384Ctx None p n) σ = Undefined NullDereference
  ∧ run (skein384Ctx_segments None data dataLength) σ = Undefined NullDereference
  ∧ run (skein384Ctx_segments None [] dataLength) σ = Done (tt, σ).
Proof.
  intros Hdata. repeat split.
  destruct data as [|seg data]; [contradiction | reflexivity].
Qed.

(** C3: hashing [a] and [b] as two segments, with the multi-segment
    [skein384] or with two [skein384Ctx] calls (or one multi-segment
    [skein384Ctx] call) and a finalize on a created context, gives the same
    48-byte digest as the single-buffer [skein384] on [a ++ b]. *)
Theorem incremental_hashing_equivalence
    (a b digest : list byte) (digestOut : zrtp.RetainedSecArray) (σ : heap) :
  48 ≤ length digest →
  48 ≤ length (zrtp.data digestOut) →
  ∃ D ctx,
    length D = 48
    ∧ skein384 (a ++ b) (length (a ++ b)) digest = Done (D ++ drop 48 digest)
    ∧ skein384_segments [a; b] [length a; length b] digest
      = Done (D ++ drop 48 digest)
    ∧ run (ctx ← createSkein384Context;
           skein384Ctx ctx a (length a);;
           skein384Ctx ctx b (length b);;
           finalizeSkein384Context ctx digestOut) σ
      = Done (zrtp.MkRetainedSecArray (D ++ drop 48 (zrtp.data digestOut))
                SHA384_DIGEST_SIZE,
              <[ctx := MkHashCtx (Some create)]> σ)
    ∧ run (ctx ← createSkein384Context;
           skein384Ctx_segments ctx [a; b] [length a; length b];;
           finalizeSkein384Context ctx digestOut) σ
      = Done (zrtp.MkRetainedSecArray (D ++ drop 48 (zrtp.data digestOut))
                SHA384_DIGEST_SIZE,
              <[ctx := MkHashCtx (Some create)]> σ).
Proof.
  intros Hd Hout.
  exists (final (update create (a ++ b))).1, (fresh (dom σ)).
  destruct (skein384_segments_concat [a; b] digest Hd) as [Hseg Hone].
  cbn [concat fmap list_fmap] in Hseg, Hone. rewrite app_nil_r in Hseg, Hone.
  split; [apply output_length|]. split; [exact Hone|].
  split; [by rewrite Hseg|]. split.
  - erewrite run_bind by apply run_createSkein384Context.
    unfold skein384Ctx.
    erewrite run_bind; cycle 1.
    { apply run_hash_update; [apply lookup_insert_eq | reflexivity]. }
    erewrite run_bind; cycle 1.
    { apply run_hash_update; [apply lookup_insert_eq | reflexivity]. }
    erewrite run_finalizeSkein384Context; [|apply lookup_insert_eq|assumption].
    by rewrite !firstn_all, update_app, !insert_insert_eq.
  - erewrite run_bind by apply run_createSkein384Context.
    unfold skein384Ctx_segments.
    erewrite run_bind; cycle 1.
    { apply (run_for_each_update_from _ _ [] [] [a; b] [length a; length b]);
        [reflexivity | repeat constructor | apply lookup_insert_eq]. }
    erewrite run_finalizeSkein384Context; [|apply lookup_insert_eq|assumption].
    cbn [zip_with concat]. by rewrite !firstn_all, app_nil_r, !insert_insert_eq.
Qed.

(** C4: on a handle to a live context, whatever its hash member holds,
    [initializeSkein384Context] leaves a fresh hash object in it and returns
    the handle; updating with [d] and finalizing then gives the digest of the
    one-shot [skein384] on [d]. *)
Theorem initialize_resets_context
    (σ : heap) (l : positive) (c : hashCtx) (d digest : list byte) (n : nat)
    (digestOut : zrtp.RetainedSecArray) :
  σ !! l = Some c →
  n ≤ length d →
  48 ≤ length digest →
  48 ≤ length (zrtp.data digestOut) →
  run (initializeSkein384Context (Some l)) σ
  = Done (Some l, <[l := MkHashCtx (Some create)]> σ)
  ∧ ∃ D,
      skein384 d n digest = Done (D ++ drop 48 digest)
      ∧ run (ctx ← initializeSkein384Context (Some l);
             skein384Ctx ctx d n;;
             finalizeSkein384Context ctx digestOut) σ
        = Done (zrtp.MkRetainedSecArray (D ++ drop 48 (zrtp.data digestOut))
                  SHA384_DIGEST_SIZE,
                <[l := MkHashCtx (Some create)]> σ).
Proof.
  intros Hl Hn Hd Hout.
  split; [by eapply run_initializeSkein384Context|].
  exists (final (update create (take n d))).1.
  split; [by apply run_skein384|].
  erewrite run_bind by (eapply run_initializeSkein384Context; eassumption).
  erewrite run_update_finalize; [|apply lookup_insert_eq|assumption..].
  by rewrite insert_insert_eq.
Qed.

(** C5: every digest-producing operation writes the 48-byte Skein digest.
    With [SHA384_DIGEST_SIZE] = 48 the length of every digest the hash object
    delivers, the one-shot [skein384] (single-buffer and multi-segment) puts
    the digest of the bytes it was given into the first [SHA384_DIGEST_SIZE]
    bytes of the output; [finalizeSkein384Context] and
    [closeSkein384Context] on a live context put the digest of the context's
    hash object there and set the size field of the output array to
    [SHA384_DIGEST_SIZE]. The bytes of the output after the digest stay as
    they were; finalize leaves the context with a fresh hash object, close
    releases it. *)
Theorem digest_is_384_bits
    (σ : heap) (l : positive) (h : hash_state) (d digest : list byte) (n : nat)
    (segments : list (list byte)) (digestOut : zrtp.RetainedSecArray) :
  σ !! l = Some (MkHashCtx (Some h)) →
  n ≤ length d →
  SHA384_DIGEST_SIZE ≤ length digest →
  SHA384_DIGEST_SIZE ≤ length (zrtp.data digestOut) →
  SHA384_DIGEST_SIZE = 48
  ∧ (∀ h' : hash_state, length (final h').1 = SHA384_DIGEST_SIZE)
  ∧ skein384 d n digest
    = Done ((final (update create (take n d))).1
              ++ drop SHA384_DIGEST_SIZE digest)
  ∧ skein384_segments segments (length <$> segments) digest
    = Done ((final (update create (concat segments))).1
              ++ drop SHA384_DIGEST_SIZE digest)
  ∧ run (finalizeSkein384Context (Some l) digestOut) σ
    = Done (zrtp.MkRetainedSecArray
              ((final h).1 ++ drop SHA384_DIGEST_SIZE (zrtp.data digestOut))
              SHA384_DIGEST_SIZE,
            <[l := MkHashCtx (Some create)]> σ)
  ∧ run (closeSkein384Context (Some l) digestOut) σ
    = Done (zrtp.MkRetainedSecArray
              ((final h).1 ++ drop SHA384_DIGEST_SIZE (zrtp.data digestOut))
              SHA384_DIGEST_SIZE,
            delete l σ).
Proof.
  unfold SHA384_DIGEST_SIZE. intros Hl Hn Hd Hout. split; [reflexivity|].
  split; [apply output_length|]. split; [|split; [|split]].
  - by apply run_skein384.
  - by destruct (skein384_segments_concat segments digest Hd) as [-> ->].
  - by apply run_finalizeSkein384Context.
  - by apply run_closeSkein384Context.
Qed.

(** C8, evaluated: with a null handle [closeSkein384Context] skips the
    guarded block, so nothing is written to [digestOut], but the statement
    after the block, [hd->hash.reset()], then goes through the null handle. *)
Theorem closeSkein384Context_null
    (digestOut : zrtp.RetainedSecArray) (σ : heap) :
  run (closeSkein384Context None digestOut) σ = Undefined NullDereference.
Proof. reflexivity. Qed.

(** C9: [createSkein384Context] returns a non-null handle to a new context
    whose hash object exists, so that an update and a finalize on it complete
    without an initialize; [initializeSkein384Context] returns the handle it
    was given: on [nullptr] it returns [nullptr] and changes nothing, on a
    live context it returns that handle, and it returns no other value. *)
Theorem create_and_initialize_handles
    (σ : heap) (d : list byte) (n : nat) (digestOut : zrtp.RetainedSecArray) :
  n ≤ length d →
  48 ≤ length (zrtp.data digestOut) →
  (∃ l, σ !! l = None
        ∧ run createSkein384Context σ
          = Done (Some l, <[l := MkHashCtx (Some create)]> σ)
        ∧ run (ctx ← createSkein384Context;
               skein384Ctx ctx d n;;
               finalizeSkein384Context ctx digestOut) σ
          = Done (zrtp.MkRetainedSecArray
                    ((final (update create (take n d))).1
                       ++ drop 48 (zrtp.data digestOut))
                    SHA384_DIGEST_SIZE,
                  <[l := MkHashCtx (Some create)]> σ))
  ∧ (∀ σ0 : heap, run (initializeSkein384Context None) σ0 = Done (None, σ0))
  ∧ (∀ (σ0 : heap) l c, σ0 !! l = Some c →
       ∃ σ1, run (initializeSkein384Context (Some l)) σ0 = Done (Some l, σ1))
  ∧ (∀ (σ0 σ1 : heap) ctx r,
       run (initializeSkein384Context ctx) σ0 = Done (r, σ1) → r = ctx).
Proof.
  intros Hn Hout. split; [|split; [|split]].
  - exists (fresh (dom σ)). split; [|split].
    + apply not_elem_of_dom, is_fresh.
    + reflexivity.
    + erewrite run_bind by apply run_createSkein384Context.
      erewrite run_update_finalize; [|apply lookup_insert_eq|assumption..].
      by rewrite insert_insert_eq.
  - reflexivity.
  - intros σ0 l c Hl. eexists. by eapply run_initializeSkein384Context.
  - intros σ0 σ1 [l|] r; [|cbn; congruence].
    unfold initializeSkein384Context. cbn.
    destruct (σ0 !! l) as [[[h|]]|]; cbn; congruence.
Qed.

End skein384_properties.

(** ** The binding on concrete inputs *)

Section skein384_examples.
#[local] Existing Instance buffered_hash.
#[local] Existing Instance buffered_hash_laws.

Lemma null_handle_is_dereferenced_witness :
  [[x01]] ≠ []
  ∧ run (skein384Ctx_segments None [[x01]] [1]) sample_heap
    = Undefined NullDereference.
Proof.
  assert ([[x01]] ≠ []) as Hne by discriminate.
  split; [exact Hne|].
  exact (proj1 (proj2 (proj2
    (null_handle_is_dereferenced sample_out [] 0 [[x01]] [1] sample_heap Hne)))).
Defined.

(** C2, the claim as written fails for the multi-segment update: with a null
    handle and no segments the loop body never runs, the function completes
    and the handle is never dereferenced. *)
Lemma skein384Ctx_segments_null_no_segments :
  run (skein384Ctx_segments None [] []) sample_heap = Done (tt, sample_heap)
  ∧ run (skein384Ctx_segments None [] []) sample_heap ≠ Undefined NullDereference.
Proof. split; [reflexivity | discriminate]. Qed.

Lemma incremental_hashing_equivalence_witness :
  48 ≤ length (replicate 50 xff)
  ∧ 48 ≤ length (zrtp.data sample_out)
  ∧ ∃ D, skein384 [x61; x62; x63] 3 (replicate 50 xff) = Done (D ++ [xff; xff])
         ∧ skein384_segments [[x61; x62]; [x63]] [2; 1] (replicate 50 xff)
           = Done (D ++ [xff; xff]).
Proof.
  assert (48 ≤ length (replicate 50 xff)) as Hd by (cbn; lia).
  assert (48 ≤ length (zrtp.data sample_out)) as Hout by (cbn; lia).
  split; [exact Hd|]. split; [exact Hout|].
  destruct (incremental_hashing_equivalence [x61; x62] [x63] (replicate 50 xff)
              sample_out sample_heap Hd Hout)
    as (D & ctx & HD & Hone & Hseg & _).
  exists D. split; [exact Hone | exact Hseg].
Defined.

Lemma initialize_resets_context_witness :
  sample_heap !! 1%positive = Some (MkHashCtx (Some [x2a]))
  ∧ 3 ≤ length [x61; x62; x63]
  ∧ 48 ≤ length (replicate 50 xff)
  ∧ 48 ≤ length (zrtp.data sample_out)
  ∧ run (initializeSkein384Context (Some 1%positive)) sample_heap
    = Done (Some 1%positive, <[1%positive := MkHashCtx (Some create)]> sample_heap).
Proof.
  assert (sample_heap !! 1%positive = Some (MkHashCtx (Some [x2a]))) as Hl
    by reflexivity.
  assert (3 ≤ length [x61; x62; x63]) as Hn by (cbn; lia).
  assert (48 ≤ length (replicate 50 xff)) as Hd by (cbn; lia).
  assert (48 ≤ length (zrtp.data sample_out)) as Hout by (cbn; lia).
  repeat (split; [assumption|]).
  exact (proj1 (initialize_resets_context sample_heap 1%positive _
                  [x61; x62; x63] (replicate 50 xff) 3 sample_out Hl Hn Hd Hout)).
Defined.

Lemma digest_is_384_bits_witness :
  sample_heap !! 1%positive = Some (MkHashCtx (Some [x2a]))
  ∧ 3 ≤ length [x61; x62; x63]
  ∧ SHA384_DIGEST_SIZE ≤ length (replicate 50 xff)
  ∧ SHA384_DIGEST_SIZE ≤ length (zrtp.data sample_out)
  ∧ run (closeSkein384Context (Some 1%positive) sample_out) sample_heap
    = Done (zrtp.MkRetainedSecArray
              ((final ([x2a] : hash_state)).1
                 ++ drop SHA384_DIGEST_SIZE (zrtp.data sample_out))
              SHA384_DIGEST_SIZE,
            delete 1%positive sample_heap).
Proof.
  assert (sample_heap !! 1%positive = Some (MkHashCtx (Some [x2a]))) as Hl
    by reflexivity.
  assert (3 ≤ length [x61; x62; x63]) as Hn by (cbn; lia).
  assert (SHA384_DIGEST_SIZE ≤ length (replicate 50 xff)) as Hd
    by (unfold SHA384_DIGEST_SIZE; cbn; lia).
  assert (SHA384_DIGEST_SIZE ≤ length (zrtp.data sample_out)) as Hout
    by (unfold SHA384_DIGEST_SIZE; cbn; lia).
  repeat (split; [assumption|]).
  exact (proj2 (proj2 (proj2 (proj2 (proj2
    (digest_is_384_bits sample_heap 1%positive _ [x61; x62; x63]
       (replicate 50 xff) 3 [[x61]; [x62; x63]] sample_out Hl Hn Hd Hout)))))).
Defined.

Lemma create_and_initialize_handles_witness :
  3 ≤ length [x61; x62; x63]
  ∧ 48 ≤ length (zrtp.data sample_out)
  ∧ ∃ l, sample_heap !! l = None
         ∧ run createSkein384Context sample_heap
           = Done (Some l, <[l := MkHashCtx (Some create)]> sample_heap).
Proof.
  assert (3 ≤ length [x61; x62; x63]) as Hn by (cbn; lia).
  assert (48 ≤ length (zrtp.data sample_out)) as Hout by (cbn; lia).
  repeat (split; [assumption|]).
  destruct (proj1 (create_and_initialize_handles sample_heap [x61; x62; x63] 3
                     sample_out Hn Hout)) as (l & Hfresh & Hrun & _).
  exists l. split; [exact Hfresh | exact Hrun].
Defined.

(** The evaluation of a whole life cycle: create, two updates, finalize,
    re-initialize, one update, close. *)
Example life_cycle :
  run (ctx ← createSkein384Context;
       skein384Ctx ctx [x61; x62] 2;;
       skein384Ctx_segments ctx [[x63]; [x64; x65]] [1; 1];;
       first ← finalizeSkein384Context ctx sample_out;
       ctx ← initializeSkein384Context ctx;
       skein384Ctx ctx [x7a] 1;;
       second ← closeSkein384Context ctx sample_out;
       mret (take 5 (zrtp.data first), zrtp.size first,
             take 2 (zrtp.data second), zrtp.size second)) ∅
  = Done (([x61; x62; x63; x64; x00], 48, [x7a; x00], 48), ∅).
Proof. vm_compute. reflexivity. Qed.

End skein384_examples.

(** * Properties of the callback proxy *)

Section callback_properties.
Context {Q : ZrtpQueue.Methods}.
Import ZrtpUserCallback.

(** A forwarding call on an object whose pointer member refers to a live
    queue runs the method on that queue and touches nothing else. *)
Lemma run_call {A} (σ : store) this q s (m : ZrtpQueue.t → A * ZrtpQueue.t) :
  callbacks σ !! this = Some (MkObject (Some q)) →
  queues σ !! q = Some s →
  run (call this m) σ
  = Done ((m s).1, MkStore (callbacks σ) (<[q := (m s).2]> (queues σ))).
Proof. intros Hthis Hq. cbn. rewrite Hthis. cbn. rewrite Hq. reflexivity. Qed.

(** C1, evaluated: [getHelloHash] and [getSasData] do call the queue's
    method, but its value is dropped and control runs off the end of the
    function: no string is returned, whatever the queue answers. *)
Theorem getters_return_no_value (σ : store) (this q : positive) (s : ZrtpQueue.t) :
  callbacks σ !! this = Some (MkObject (Some q)) →
  queues σ !! q = Some s →
  run (getHelloHash this) σ = Undefined MissingReturn
  ∧ run (getSasData this) σ = Undefined MissingReturn
  ∧ run (getHelloHash this) σ
    ≠ Done ((ZrtpQueue.getHelloHash s).1,
            MkStore (callbacks σ) (<[q := (ZrtpQueue.getHelloHash s).2]> (queues σ)))
  ∧ run (getSasData this) σ
    ≠ Done ((ZrtpQueue.getSasData s).1,
            MkStore (callbacks σ) (<[q := (ZrtpQueue.getSasData s).2]> (queues σ))).
Proof.
  intros Hthis Hq.
  assert (run (getHelloHash this) σ = Undefined MissingReturn) as Hh.
  { unfold getHelloHash. erewrite run_bind by (by apply run_call). reflexivity. }
  assert (run (getSasData this) σ = Undefined MissingReturn) as Hs.
  { unfold getSasData. erewrite run_bind by (by apply run_call). reflexivity. }
  rewrite Hh, Hs. repeat split; discriminate.
Qed.

(** C6: each default control method, called on an object whose [zrtpQueue]
    refers to a live queue, runs exactly the queue method of the same purpose
    with the arguments it was given; the callback objects, and every other
    queue, are as before. *)
Theorem control_methods_pass_through
    (σ : store) (this q : positive) (s : ZrtpQueue.t)
    (onOff : bool) (data : list byte) (length : Z) :
  callbacks σ !! this = Some (MkObject (Some q)) →
  queues σ !! q = Some s →
  let forwarded (f : ZrtpQueue.t → ZrtpQueue.t) :=
    Done (tt, MkStore (callbacks σ) (<[q := f s]> (queues σ))) in
  run (enableZrtp this onOff) σ = forwarded (ZrtpQueue.setEnableZrtp onOff)
  ∧ run (SASVerified this) σ = forwarded ZrtpQueue.SASVerified
  ∧ run (resetSASVerified this) σ = forwarded ZrtpQueue.resetSASVerified
  ∧ run (goClearOk this) σ = forwarded ZrtpQueue.goClearOk
  ∧ run (requestGoClear this) σ = forwarded ZrtpQueue.requestGoClear
  ∧ run (setSigsSecret this data) σ = forwarded (ZrtpQueue.setSigsSecret data)
  ∧ run (setSrtpsSecret this data) σ = forwarded (ZrtpQueue.setSrtpsSecret data)
  ∧ run (setOtherSecret this data length) σ
    = forwarded (ZrtpQueue.setOtherSecret data length).
Proof.
  intros Hthis Hq forwarded. subst forwarded.
  unfold enableZrtp, SASVerified, resetSASVerified, goClearOk, requestGoClear,
    setSigsSecret, setSrtpsSecret, setOtherSecret.
  repeat split; by erewrite run_call.
Qed.

(** C10: the destructor body changes nothing, so the pointer member still
    holds what it held and the queue it refers to is as before; ending the
    object's life removes the callback object and leaves every queue in
    place. *)
Theorem destructor_leaves_queue (σ : store) (this : positive) (self : object) :
  callbacks σ !! this = Some self →
  run (destructor this) σ = Done (tt, σ)
  ∧ run (destroy this) σ
    = Done (tt, MkStore (delete this (callbacks σ)) (queues σ)).
Proof. intros Hthis. split; [reflexivity|]. cbn. by rewrite Hthis. Qed.

End callback_properties.

(** ** The proxy on concrete inputs *)

Section callback_examples.
#[local] Existing Instance recording_queue.
Import ZrtpUserCallback.

Lemma getters_return_no_value_witness :
  callbacks sample_store !! 1%positive = Some (MkObject (Some 2%positive))
  ∧ queues sample_store !! 2%positive = Some []
  ∧ ZrtpQueue.getHelloHash [] = ("0"%string, [CallGetHelloHash])
  ∧ run (getHelloHash 1%positive) sample_store = Undefined MissingReturn
  ∧ run (getSasData 1%positive) sample_store = Undefined MissingReturn.
Proof.
  assert (callbacks sample_store !! 1%positive = Some (MkObject (Some 2%positive)))
    as Hthis by reflexivity.
  assert (queues sample_store !! 2%positive = Some []) as Hq by reflexivity.
  split; [exact Hthis|]. split; [exact Hq|]. split; [reflexivity|].
  destruct (getters_return_no_value sample_store 1%positive 2%positive [] Hthis Hq)
    as (Hh & Hs & _).
  split; [exact Hh | exact Hs].
Defined.

Lemma control_methods_pass_through_witness :
  callbacks sample_store !! 1%positive = Some (MkObject (Some 2%positive))
  ∧ queues sample_store !! 2%positive = Some []
  ∧ run (setOtherSecret 1%positive [x01; x02] 2) sample_store
    = Done (tt, MkStore (callbacks sample_store)
                  (<[2%positive := [CallSetOtherSecret [x01; x02] 2]]>
                     (queues sample_store))).
Proof.
  assert (callbacks sample_store !! 1%positive = Some (MkObject (Some 2%positive)))
    as Hthis by reflexivity.
  assert (queues sample_store !! 2%positive = Some []) as Hq by reflexivity.
  repeat (split; [assumption|]).
  exact (proj2 (proj2 (proj2 (proj2 (proj2 (proj2 (proj2
    (control_methods_pass_through sample_store 1%positive 2%positive [] true
       [x01; x02] 2 Hthis Hq)))))))).
Defined.

Lemma destructor_leaves_queue_witness :
  callbacks sample_store !! 1%positive = Some (MkObject (Some 2%positive))
  ∧ run (destroy 1%positive) sample_store
    = Done (tt, MkStore (delete 1%positive (callbacks sample_store))
                  (queues sample_store)).
Proof.
  assert (callbacks sample_store !! 1%positive = Some (MkObject (Some 2%positive)))
    as Hthis by reflexivity.
  split; [assumption|].
  exact (proj2 (destructor_leaves_queue sample_store 1%positive _ Hthis)).
Defined.

(** The calls a queue sees when the host goes through the control methods in
    turn, and what is left once the callback object is gone. *)
Example forwarded_calls :
  run (enableZrtp 1%positive true;;
       SASVerified 1%positive;;
       resetSASVerified 1%positive;;
       requestGoClear 1%positive;;
       goClearOk 1%positive;;
       setSigsSecret 1%positive [x01];;
       setSrtpsSecret 1%positive [x02];;
       setOtherSecret 1%positive [x03; x04] 2;;
       destroy 1%positive) sample_store
  = Done (tt, MkStore ∅
                {[ 2%positive :=
                     [CallSetEnableZrtp true; CallSASVerified;
                      CallResetSASVerified; CallRequestGoClear; CallGoClearOk;
                      CallSetSigsSecret [x01]; CallSetSrtpsSecret [x02];
                      CallSetOtherSecret [x03; x04] 2] ]}).
Proof. vm_compute. reflexivity. Qed.

(** An object constructed on a null queue pointer: every forwarding method
    goes through the null pointer. *)
Example null_queue_pointer :
  run (constructor 3%positive None;; enableZrtp 3%positive true) sample_store
  = Undefined NullDereference.
Proof. vm_compute. reflexivity. Qed.

End callback_examples.

(** * Go-clear *)

Section go_clear_properties.
Import GoClear.

(** A receiver waiting for the user's consent stays where it is, protected,
    under every event but the confirmation. *)
Lemma awaiting_consent_stable (es : list event) (s : session) :
  current s = GoClearRequested →
  secure s = true →
  ConfirmGoClear ∉ es →
  steps s es = s.
Proof.
  revert s. induction es as [|e es IH]; intros s Hcur Hsec Hno; [reflexivity|].
  apply not_elem_of_cons in Hno as [Hne Hno].
  cbn. replace (step s e).1 with s; [by apply IH|].
  unfold step. rewrite Hcur, Hsec. by destruct e.
Qed.

(** C7: the requester's media goes out in clear right after
    [requestGoClear] has sent the request; the receiver of the request keeps
    sending protected media through any events that are not the user's
    confirmation, and sends in clear once the confirmation is given. *)
Theorem go_clear_asymmetry (es : list event) (payload : list byte) :
  ConfirmGoClear ∉ es →
  let requester := (step secure_on RequestGoClear).1 in
  let receiver := (step secure_on GoClearReceived).1 in
  SendGoClear ∈ (step secure_on RequestGoClear).2
  ∧ send_media secure_on payload = Protected payload
  ∧ send_media requester payload = Clear payload
  ∧ send_media (steps receiver es) payload = Protected payload
  ∧ send_media (steps receiver (es ++ [ConfirmGoClear])) payload = Clear payload.
Proof.
  intros Hno requester receiver.
  split; [left|]. split; [reflexivity|]. split; [reflexivity|].
  unfold steps. rewrite foldl_app. fold (steps receiver es).
  by rewrite awaiting_consent_stable.
Qed.

Lemma go_clear_asymmetry_witness :
  (ConfirmGoClear ∉ [GoClearReceived; RequestGoClear; ClearAckReceived])
  ∧ send_media
      (steps (step secure_on GoClearReceived).1
         [GoClearReceived; RequestGoClear; ClearAckReceived]) [x01]
    = Protected [x01].
Proof.
  assert (ConfirmGoClear ∉ [GoClearReceived; RequestGoClear; ClearAckReceived])
    as Hno.
  { intros Hin. repeat (apply elem_of_cons in Hin as [Hin|Hin]; [discriminate|]).
    by apply elem_of_nil in Hin. }
  split; [exact Hno|].
  exact (proj1 (proj2 (proj2 (proj2 (go_clear_asymmetry _ [x01] Hno))))).
Defined.

End go_clear_properties.

(** * Further properties of the binding *)

Section skein384_segments_properties.
Context {HF : HashFunction} {HL : HashFunctionLaws HF}.

Lemma fold_each_ext {A} (idx : list nat) (body1 body2 : A → nat → outcome A) a :
  (∀ i a, i ∈ idx → body1 a i = body2 a i) →
  fold_each idx body1 a = fold_each idx body2 a.
Proof.
  revert a. induction idx as [|i idx IH]; intros a Hext; [reflexivity|].
  cbn [fold_each]. rewrite Hext by left.
  destruct (body2 a i) as [a'|f]; [|reflexivity].
  cbn. apply IH. intros j b Hj. apply Hext. by right.
Qed.

Lemma for_each_ext {S} (idx : list nat) (body1 body2 : nat → M S unit) :
  (∀ i, i ∈ idx → body1 i = body2 i) →
  for_each idx body1 = for_each idx body2.
Proof.
  induction idx as [|i idx IH]; intros Hext; [reflexivity|].
  cbn [for_each]. rewrite Hext by left. rewrite IH; [reflexivity|].
  intros j Hj. apply Hext. by right.
Qed.

Lemma run_bind_undefined {S A B} (m : M S A) (k : A → M S B) σ f :
  run m σ = Undefined f → run (m ≫= k) σ = Undefined f.
Proof. intros Hm. unfold mbind, M_bind. simpl. rewrite Hm. reflexivity. Qed.

Lemma index_app_l {A} (v w : list A) i :
  i < length v → index (v ++ w) i = index v i.
Proof. intros Hi. unfold index. by rewrite lookup_app_l. Qed.

Lemma index_short {A} (v : list A) i :
  length v ≤ i → index v i = Undefined OutOfBounds.
Proof. intros Hi. unfold index. by rewrite lookup_ge_None_2. Qed.

Lemma index_fault {A} (v : list A) i f :
  index v i = Undefined f → f = OutOfBounds.
Proof. unfold index. destruct (v !! i); congruence. Qed.

(** The only fault of an update on a local hash object is an access out of
    bounds. *)
Lemma local_update_fault h (data : list (list byte)) (dataLength : list nat) i f :
  local_update h (index data i) (index dataLength i) = Undefined f →
  f = OutOfBounds.
Proof.
  unfold local_update, index, read_bytes.
  destruct (data !! i) as [p|]; cbn; [|congruence].
  destruct (dataLength !! i) as [n|]; cbn; [|congruence].
  destruct (decide (n ≤ length p)); cbn; congruence.
Qed.

Lemma local_update_short h (data : list (list byte)) (dataLength : list nat) i :
  length dataLength ≤ i →
  local_update h (index data i) (index dataLength i) = Undefined OutOfBounds.
Proof.
  intros Hi. unfold local_update. rewrite (index_short dataLength) by done.
  by destruct (index data i) as [p|f] eqn:Hp; cbn; [|apply index_fault in Hp as ->].
Qed.

Lemma fold_each_out_of_bounds data dataLength (idx : list nat) i h :
  i ∈ idx →
  length dataLength ≤ i →
  fold_each idx
    (λ h i, local_update h (index data i) (index dataLength i)) h
  = Undefined OutOfBounds.
Proof.
  intros Hi Hshort. revert h.
  induction idx as [|j idx IH]; intros h; [by apply elem_of_nil in Hi|].
  cbn [fold_each].
  destruct (local_update h (index data j) (index dataLength j)) as [h'|f] eqn:Hj.
  - cbn. apply elem_of_cons in Hi as [->|Hi]; [|by apply IH].
    by rewrite local_update_short in Hj.
  - cbn. by apply local_update_fault in Hj as ->.
Qed.

(** On a live context that owns a hash object, one update either absorbs
    some bytes or reads out of bounds. *)
Lemma run_hash_update_cases (σ : heap) l h (data : list (list byte))
    (dataLength : list nat) i :
  σ !! l = Some (MkHashCtx (Some h)) →
  (∃ bytes, run (hash_update (Some l) (index data i) (index dataLength i)) σ
            = Done (tt, <[l := MkHashCtx (Some (update h bytes))]> σ))
  ∨ run (hash_update (Some l) (index data i) (index dataLength i)) σ
    = Undefined OutOfBounds.
Proof.
  intros Hl. unfold hash_update, index, read_bytes. cbn. rewrite Hl. cbn.
  destruct (data !! i) as [p|]; cbn; [|by right].
  destruct (dataLength !! i) as [n|]; cbn; [|by right].
  destruct (decide (n ≤ length p)); cbn; [left; by eexists | by right].
Qed.

Lemma run_hash_update_short (σ : heap) l h (data : list (list byte))
    (dataLength : list nat) i :
  σ !! l = Some (MkHashCtx (Some h)) →
  length dataLength ≤ i →
  run (hash_update (Some l) (index data i) (index dataLength i)) σ
  = Undefined OutOfBounds.
Proof.
  intros Hl Hi. unfold hash_update. cbn. rewrite Hl. cbn.
  rewrite (index_short dataLength) by done.
  by destruct (index data i) as [p|f] eqn:Hp; cbn; [|apply index_fault in Hp as ->].
Qed.

Lemma run_for_each_out_of_bounds (σ : heap) l h data dataLength (idx : list nat) i :
  i ∈ idx →
  length dataLength ≤ i →
  σ !! l = Some (MkHashCtx (Some h)) →
  run (for_each idx
         (λ i, hash_update (Some l) (index data i) (index dataLength i))) σ
  = Undefined OutOfBounds.
Proof.
  intros Hi Hshort. revert σ h.
  induction idx as [|j idx IH]; intros σ h Hl; [by apply elem_of_nil in Hi|].
  cbn [for_each].
  destruct (run_hash_update_cases σ l h data dataLength j Hl) as [[bytes Hj]|Hj].
  - erewrite run_bind by exact Hj.
    apply elem_of_cons in Hi as [->|Hi].
    + by rewrite (run_hash_update_short σ l h) in Hj.
    + eapply IH; [done|]. apply lookup_insert_eq.
  - by apply run_bind_undefined.
Qed.

(** X1: the multi-segment one-shot hash, for any number of segments and any
    lengths that stay inside their buffers, is the single-buffer hash of the
    bytes read, in order. *)
Theorem segments_hash_is_hash_of_concatenation
    (data : list (list byte)) (dataLength : list nat) (digest : list byte) :
  Forall2 (λ p n, n ≤ length p) data dataLength →
  48 ≤ length digest →
  let message := concat (zip_with take dataLength data) in
  skein384_segments data dataLength digest
  = skein384 message (length message) digest
  ∧ skein384_segments data dataLength digest
    = Done ((final (update create message)).1 ++ drop 48 digest).
Proof.
  intros Hall Hd message.
  rewrite run_skein384 by (done || lia). rewrite firstn_all.
  assert (skein384_segments data dataLength digest
          = Done ((final (update create message)).1 ++ drop 48 digest)) as ->;
    [|done].
  unfold skein384_segments.
  pose proof (fold_each_update_from [] [] data dataLength create eq_refl Hall)
    as Hfold.
  cbn [app length] in Hfold. cbn. rewrite Hfold. cbn.
  unfold write_bytes. rewrite output_length.
  destruct (decide (48 ≤ length digest)); [done | contradiction].
Qed.

(** X2: on a live context, the multi-segment update leaves the context
    exactly where one single-buffer update with the concatenated bytes
    leaves it. *)
Theorem segments_update_is_one_update
    (σ : heap) (l : positive) (h : hash_state)
    (data : list (list byte)) (dataLength : list nat) :
  σ !! l = Some (MkHashCtx (Some h)) →
  Forall2 (λ p n, n ≤ length p) data dataLength →
  let message := concat (zip_with take dataLength data) in
  run (skein384Ctx_segments (Some l) data dataLength) σ
  = run (skein384Ctx (Some l) message (length message)) σ
  ∧ run (skein384Ctx_segments (Some l) data dataLength) σ
    = Done (tt, <[l := MkHashCtx (Some (update h message))]> σ).
Proof.
  intros Hl Hall message.
  unfold skein384Ctx. rewrite (run_hash_update σ l h) by done.
  rewrite firstn_all.
  assert (run (skein384Ctx_segments (Some l) data dataLength) σ
          = Done (tt, <[l := MkHashCtx (Some (update h message))]> σ)) as ->;
    [|done].
  exact (run_for_each_update_from σ l [] [] data dataLength h eq_refl Hall Hl).
Qed.

(** X3: the loop of both multi-segment functions is bounded by [data.size()]
    alone. When [dataLength] has fewer entries than [data], the loop indexes
    [dataLength] out of range (or has read out of bounds before): the
    one-shot hash, and the update on a live context, are undefined. *)
Theorem missing_lengths_are_out_of_bounds
    (σ : heap) (l : positive) (h : hash_state)
    (data : list (list byte)) (dataLength : list nat) (digest : list byte) :
  length dataLength < length data →
  σ !! l = Some (MkHashCtx (Some h)) →
  skein384_segments data dataLength digest = Undefined OutOfBounds
  ∧ run (skein384Ctx_segments (Some l) data dataLength) σ
    = Undefined OutOfBounds.
Proof.
  intros Hshort Hl.
  assert (length dataLength ∈ seq 0 (length data)) as Hin
    by (apply elem_of_seq; lia).
  split.
  - unfold skein384_segments. cbn zeta.
    by rewrite (fold_each_out_of_bounds data dataLength _ (length dataLength)).
  - unfold skein384Ctx_segments. cbn zeta.
    by eapply run_for_each_out_of_bounds.
Qed.

(** X4: entries of [dataLength] beyond the number of segments are never
    looked at, whatever the handle and the heap are. *)
Theorem surplus_lengths_are_ignored
    (σ : heap) (ctx : handle) (data : list (list byte))
    (dataLength surplus : list nat) (digest : list byte) :
  length dataLength = length data →
  skein384_segments data (dataLength ++ surplus) digest
  = skein384_segments data dataLength digest
  ∧ run (skein384Ctx_segments ctx data (dataLength ++ surplus)) σ
    = run (skein384Ctx_segments ctx data dataLength) σ.
Proof.
  intros Hlen. split.
  - unfold skein384_segments. cbn zeta.
    erewrite fold_each_ext; [reflexivity|].
    intros i h Hi. apply elem_of_seq in Hi.
    rewrite index_app_l by lia. reflexivity.
  - unfold skein384Ctx_segments. cbn zeta.
    erewrite for_each_ext; [reflexivity|].
    intros i Hi. apply elem_of_seq in Hi.
    rewrite index_app_l by lia. reflexivity.
Qed.

End skein384_segments_properties.

Section skein384_context_properties.
Context {HF : HashFunction} {HL : HashFunctionLaws HF}.

Lemma run_deref_dangling (σ : heap) l :
  σ !! l = None → run (deref (Some l)) σ = Undefined DanglingPointer.
Proof. intros Hl. unfold deref. cbn. by rewrite Hl. Qed.

Lemma hash_update_inv (σ σ' : heap) l p n r :
  run (hash_update (Some l) p n) σ = Done (r, σ') →
  ∃ h bytes, σ !! l = Some (MkHashCtx (Some h))
             ∧ σ' = <[l := MkHashCtx (Some (update h bytes))]> σ.
Proof.
  unfold hash_update, read_bytes. cbn.
  destruct (σ !! l) as [[[h|]]|]; cbn; [|discriminate..].
  destruct p as [p|]; cbn; [|discriminate].
  destruct n as [n|]; cbn; [|discriminate].
  destruct (decide (n ≤ length p)); cbn; [|discriminate].
  intros [= _ <-]. by do 2 eexists.
Qed.

Lemma hash_final_inv (σ σ' : heap) l out r :
  run (hash_final (Some l) out) σ = Done (r, σ') →
  ∃ h, σ !! l = Some (MkHashCtx (Some h))
       ∧ σ' = <[l := MkHashCtx (Some (final h).2)]> σ.
Proof.
  unfold hash_final, write_bytes. cbn.
  destruct (σ !! l) as [[[h|]]|]; cbn; [|discriminate..].
  destruct (decide _); cbn; [|discriminate].
  intros [= _ <-]. by eexists.
Qed.

(** Overwriting a live context changes no other address and not the set of
    live addresses. *)
Lemma overwrite_local (σ : heap) l l' c c' :
  σ !! l = Some c → l' ≠ l →
  <[l := c']> σ !! l' = σ !! l' ∧ dom (<[l := c']> σ) = dom σ.
Proof.
  intros Hl Hne. split; [by apply lookup_insert_ne|].
  by apply dom_insert_lookup_L.
Qed.

Lemma for_each_hash_update_local (σ σ' : heap) l l' data dataLength idx r :
  l' ≠ l →
  run (for_each idx
         (λ i, hash_update (Some l) (index data i) (index dataLength i))) σ
  = Done (r, σ') →
  σ' !! l' = σ !! l' ∧ dom σ' = dom σ.
Proof.
  intros Hne. revert σ.
  induction idx as [|i idx IH]; intros σ; [by intros [= _ <-]|].
  cbn [for_each].
  destruct (run (hash_update (Some l) (index data i) (index dataLength i)) σ)
    as [[[] σ1]|f] eqn:Hi.
  - erewrite run_bind by exact Hi. intros Hrest.
    apply IH in Hrest as [Hlook Hdom].
    apply hash_update_inv in Hi as (h & bytes & Hl & ->).
    destruct (overwrite_local σ l l' _ (MkHashCtx (Some (update h bytes))) Hl Hne)
      as [Hlook' Hdom'].
    split; congruence.
  - by erewrite run_bind_undefined by exact Hi.
Qed.

(** X5: after [closeSkein384Context] the handle refers to no context any
    more: updating, finalizing, re-initializing or closing through it again
    is a use of a dangling pointer. In particular
    [initializeSkein384Context] does not bring a closed context back. *)
Theorem closed_context_is_gone
    (σ : heap) (l : positive) (h : hash_state)
    (digestOut : zrtp.RetainedSecArray) (p : list byte) (n : nat)
    (data : list (list byte)) (dataLength : list nat) :
  σ !! l = Some (MkHashCtx (Some h)) →
  48 ≤ length (zrtp.data digestOut) →
  data ≠ [] →
  run (closeSkein384Context (Some l) digestOut;;
       skein384Ctx (Some l) p n) σ = Undefined DanglingPointer
  ∧ run (closeSkein384Context (Some l) digestOut;;
         skein384Ctx_segments (Some l) data dataLength) σ
    = Undefined DanglingPointer
  ∧ run (closeSkein384Context (Some l) digestOut;;
         finalizeSkein384Context (Some l) digestOut) σ
    = Undefined DanglingPointer
  ∧ run (closeSkein384Context (Some l) digestOut;;
         initializeSkein384Context (Some l)) σ = Undefined DanglingPointer
  ∧ run (closeSkein384Context (Some l) digestOut;;
         closeSkein384Context (Some l) digestOut) σ = Undefined DanglingPointer.
Proof.
  intros Hl Hout Hdata.
  pose proof (run_closeSkein384Context σ l h digestOut Hl Hout) as Hclose.
  pose proof (lookup_delete_eq σ l) as Hgone.
  repeat split; erewrite run_bind by exact Hclose.
  - unfold skein384Ctx, hash_update. by apply run_bind_undefined, run_deref_dangling.
  - destruct data as [|seg data]; [done|]. unfold skein384Ctx_segments.
    cbn [length seq for_each]. apply run_bind_undefined.
    unfold hash_update. by apply run_bind_undefined, run_deref_dangling.
  - unfold finalizeSkein384Context, hash_final.
    by apply run_bind_undefined, run_bind_undefined, run_deref_dangling.
  - unfold initializeSkein384Context. cbn. by rewrite Hgone.
  - unfold closeSkein384Context, hash_final. cbn. by rewrite Hgone.
Qed.

(** X6: whatever a context function does through a handle, it does to that
    context only. When one completes, every other address holds what it held
    before; the update, finalize and initialize functions keep the set of
    live contexts, and close removes exactly the one it was given. *)
Theorem context_operations_are_local (σ σ' : heap) (l l' : positive) :
  l' ≠ l →
  (∀ p n r, run (skein384Ctx (Some l) p n) σ = Done (r, σ') →
     σ' !! l' = σ !! l' ∧ dom σ' = dom σ)
  ∧ (∀ data dataLength r,
       run (skein384Ctx_segments (Some l) data dataLength) σ = Done (r, σ') →
       σ' !! l' = σ !! l' ∧ dom σ' = dom σ)
  ∧ (∀ digestOut r,
       run (finalizeSkein384Context (Some l) digestOut) σ = Done (r, σ') →
       σ' !! l' = σ !! l' ∧ dom σ' = dom σ)
  ∧ (∀ r, run (initializeSkein384Context (Some l)) σ = Done (r, σ') →
       σ' !! l' = σ !! l' ∧ dom σ' = dom σ)
  ∧ (∀ digestOut r,
       run (closeSkein384Context (Some l) digestOut) σ = Done (r, σ') →
       σ' !! l' = σ !! l' ∧ dom σ' = dom σ ∖ {[l]}).
Proof.
  intros Hne. split; [|split; [|split; [|split]]].
  - intros p n r Hrun. unfold skein384Ctx in Hrun.
    apply hash_update_inv in Hrun as (h & bytes & Hl & ->).
    by eapply overwrite_local.
  - intros data dataLength r Hrun. by eapply for_each_hash_update_local.
  - intros digestOut r. unfold finalizeSkein384Context. cbn zeta.
    destruct (run (hash_final (Some l) (zrtp.data digestOut)) σ)
      as [[d σ1]|f] eqn:Hfin.
    + erewrite run_bind by exact Hfin. intros [= _ <-].
      apply hash_final_inv in Hfin as (h & Hl & ->). by eapply overwrite_local.
    + by erewrite run_bind_undefined by exact Hfin.
  - intros r. unfold initializeSkein384Context. cbn.
    destruct (σ !! l) as [[[h|]]|] eqn:Hl; cbn; [| |discriminate];
      intros [= _ <-]; by eapply overwrite_local.
  - intros digestOut r. unfold closeSkein384Context. cbn zeta.
    destruct (run (hash_final (Some l) (zrtp.data digestOut)) σ)
      as [[d σ1]|f] eqn:Hfin.
    + erewrite run_bind; cycle 1.
      { erewrite run_bind by exact Hfin. reflexivity. }
      apply hash_final_inv in Hfin as (h & Hl & ->).
      cbn. rewrite lookup_insert_eq. cbn. intros [= _ <-].
      rewrite insert_insert_eq, delete_insert_eq. split.
      * by apply lookup_delete_ne.
      * apply dom_delete_L.
    + erewrite run_bind_undefined; [discriminate|].
      by erewrite run_bind_undefined by exact Hfin.
Qed.

End skein384_context_properties.

Section skein384_life_cycle_properties.
Context {HF : HashFunction} {HL : HashFunctionLaws HF}.

Lemma fresh_not_live (σ : heap) : σ !! fresh (dom σ) = None.
Proof. apply not_elem_of_dom, is_fresh. Qed.

Lemma read_bytes_take (p p' : list byte) n :
  n ≤ length p → n ≤ length p' → take n p = take n p' →
  read_bytes p n = read_bytes p' n.
Proof.
  intros Hp Hp' Heq. unfold read_bytes.
  destruct (decide (n ≤ length p)), (decide (n ≤ length p')); try contradiction.
  by rewrite Heq.
Qed.

(** X7: two created contexts have different handles and do not interfere:
    with their updates interleaved, each one finalizes to the one-shot digest
    of the bytes that went into it. *)
Theorem two_contexts_are_independent
    (σ : heap) (a b : list byte) (na nb : nat)
    (outA outB : zrtp.RetainedSecArray) :
  na ≤ length a →
  nb ≤ length b →
  48 ≤ length (zrtp.data outA) →
  48 ≤ length (zrtp.data outB) →
  ∃ c1 c2 dA dB σ',
    c1 ≠ c2
    ∧ run (ctx1 ← createSkein384Context;
           ctx2 ← createSkein384Context;
           skein384Ctx ctx1 a na;;
           skein384Ctx ctx2 b nb;;
           digestA ← finalizeSkein384Context ctx1 outA;
           digestB ← finalizeSkein384Context ctx2 outB;
           mret (ctx1, ctx2, digestA, digestB)) σ
      = Done ((Some c1, Some c2,
               zrtp.MkRetainedSecArray dA SHA384_DIGEST_SIZE,
               zrtp.MkRetainedSecArray dB SHA384_DIGEST_SIZE), σ')
    ∧ skein384 a na (zrtp.data outA) = Done dA
    ∧ skein384 b nb (zrtp.data outB) = Done dB.
Proof.
  intros Ha Hb HoutA HoutB.
  set (c1 := fresh (dom σ)).
  set (σ1 := <[c1 := MkHashCtx (Some create)]> σ).
  set (c2 := fresh (dom σ1)).
  assert (c1 ≠ c2) as Hne.
  { intros Heq. pose proof (fresh_not_live σ1) as Hfresh.
    fold c2 in Hfresh. rewrite <- Heq in Hfresh.
    unfold σ1 in Hfresh. by rewrite lookup_insert_eq in Hfresh. }
  assert (c2 ≠ c1) as Hne' by done.
  exists c1, c2. do 3 eexists. split; [exact Hne|]. split; [|split].
  - erewrite run_bind by apply run_createSkein384Context.
    erewrite run_bind by apply run_createSkein384Context.
    fold c1 σ1 c2. unfold skein384Ctx.
    erewrite run_bind; cycle 1.
    { apply run_hash_update; [|exact Ha].
      rewrite (lookup_insert_ne _ c2 c1) by exact Hne'. apply lookup_insert_eq. }
    erewrite run_bind; cycle 1.
    { apply run_hash_update; [|exact Hb].
      rewrite (lookup_insert_ne _ c1 c2) by exact Hne. apply lookup_insert_eq. }
    erewrite run_bind; cycle 1.
    { apply run_finalizeSkein384Context; [|exact HoutA].
      rewrite (lookup_insert_ne _ c2 c1) by exact Hne'. apply lookup_insert_eq. }
    erewrite run_bind; cycle 1.
    { apply run_finalizeSkein384Context; [|exact HoutB].
      rewrite (lookup_insert_ne _ c1 c2) by exact Hne. apply lookup_insert_eq. }
    reflexivity.
  - by apply run_skein384.
  - by apply run_skein384.
Qed.

(** X8: a context that is created, fed and closed gives the one-shot digest
    and leaves the heap exactly as it was before the create: close releases
    what create allocated. *)
Theorem create_close_round_trip
    (σ : heap) (p : list byte) (n : nat) (digestOut : zrtp.RetainedSecArray) :
  n ≤ length p →
  48 ≤ length (zrtp.data digestOut) →
  ∃ d,
    run (ctx ← createSkein384Context;
         skein384Ctx ctx p n;;
         closeSkein384Context ctx digestOut) σ
    = Done (zrtp.MkRetainedSecArray d SHA384_DIGEST_SIZE, σ)
    ∧ skein384 p n (zrtp.data digestOut) = Done d.
Proof.
  intros Hn Hout. eexists. split; [|by apply run_skein384].
  erewrite run_bind by apply run_createSkein384Context.
  unfold skein384Ctx.
  erewrite run_bind; cycle 1.
  { apply run_hash_update; [apply lookup_insert_eq | exact Hn]. }
  erewrite run_closeSkein384Context; [|apply lookup_insert_eq | exact Hout].
  by rewrite !delete_insert_eq, delete_id by apply fresh_not_live.
Qed.

(** X9: [initializeSkein384Context] is idempotent on any handle, and on a
    context that [createSkein384Context] has just made it changes nothing. *)
Theorem initialize_is_idempotent (σ : heap) (ctx : handle) :
  run (ctx' ← initializeSkein384Context ctx; initializeSkein384Context ctx') σ
  = run (initializeSkein384Context ctx) σ
  ∧ run (ctx' ← createSkein384Context; initializeSkein384Context ctx') σ
    = run createSkein384Context σ.
Proof.
  split.
  - destruct ctx as [l|]; [|reflexivity].
    destruct (σ !! l) as [c|] eqn:Hl.
    + erewrite run_bind by (by eapply run_initializeSkein384Context).
      erewrite !run_initializeSkein384Context;
        [|exact Hl|apply lookup_insert_eq].
      by rewrite insert_insert_eq.
    + assert (run (initializeSkein384Context (Some l)) σ
              = Undefined DanglingPointer) as Hgone
        by (unfold initializeSkein384Context; cbn; by rewrite Hl).
      rewrite Hgone. by apply run_bind_undefined.
  - erewrite run_bind by apply run_createSkein384Context.
    erewrite run_initializeSkein384Context by apply lookup_insert_eq.
    by rewrite insert_insert_eq.
Qed.

(** X10: only the first [dataLength] bytes of [data] are read: two buffers
    that agree on them give the same one-shot digest and the same update,
    whatever follows in the buffers. *)
Theorem only_dataLength_bytes_are_read
    (σ : heap) (ctx : handle) (p p' digest : list byte) (n : nat) :
  n ≤ length p →
  n ≤ length p' →
  take n p = take n p' →
  skein384 p n digest = skein384 p' n digest
  ∧ run (skein384Ctx ctx p n) σ = run (skein384Ctx ctx p' n) σ.
Proof.
  intros Hp Hp' Heq. pose proof (read_bytes_take p p' n Hp Hp' Heq) as Hread.
  split.
  - unfold skein384, local_update. cbn. by rewrite Hread.
  - unfold skein384Ctx, hash_update. cbn.
    destruct ctx as [l|]; [|reflexivity].
    destruct (σ !! l) as [[[h|]]|]; cbn; [|reflexivity..].
    by rewrite Hread.
Qed.

(** X11: an update of length zero leaves a live context as it is, and the
    one-shot hash of zero bytes is the hash of no segments at all, whatever
    [data] points to. *)
Theorem zero_length_update_is_no_op
    (σ : heap) (l : positive) (h : hash_state) (p digest : list byte) :
  σ !! l = Some (MkHashCtx (Some h)) →
  run (skein384Ctx (Some l) p 0) σ = Done (tt, σ)
  ∧ skein384 p 0 digest = skein384_segments [] [] digest.
Proof.
  intros Hl. split.
  - unfold skein384Ctx. rewrite (run_hash_update σ l h) by (done || lia).
    change (take 0 p) with (@nil byte). by rewrite update_nil, insert_id.
  - unfold skein384, skein384_segments, local_update, read_bytes. cbn.
    destruct (decide (0 ≤ length p)); [cbn | lia].
    by rewrite update_nil.
Qed.

(** X12: the functions write the 48 digest bytes without knowing the size of
    the output. The one-shot hash is out of bounds exactly when [dataLength]
    exceeds the input or the output is shorter than 48 bytes; finalize and
    close on a live context are out of bounds exactly when the output array
    holds fewer than 48 bytes. *)
Theorem output_needs_48_bytes
    (σ : heap) (l : positive) (h : hash_state) (p digest : list byte) (n : nat)
    (digestOut : zrtp.RetainedSecArray) :
  σ !! l = Some (MkHashCtx (Some h)) →
  (skein384 p n digest = Undefined OutOfBounds
   ↔ length p < n ∨ length digest < 48)
  ∧ (run (finalizeSkein384Context (Some l) digestOut) σ = Undefined OutOfBounds
     ↔ length (zrtp.data digestOut) < 48)
  ∧ (run (closeSkein384Context (Some l) digestOut) σ = Undefined OutOfBounds
     ↔ length (zrtp.data digestOut) < 48).
Proof.
  intros Hl. split; [|split].
  - destruct (decide (n ≤ length p)) as [Hn|Hn].
    + destruct (decide (48 ≤ length digest)) as [Hd|Hd].
      * rewrite run_skein384 by done. split; [discriminate | lia].
      * unfold skein384, local_update, read_bytes, write_bytes. cbn.
        destruct (decide (n ≤ length p)); [cbn | contradiction].
        rewrite output_length.
        destruct (decide (48 ≤ length digest)); [contradiction|].
        split; [lia | reflexivity].
    + unfold skein384, local_update, read_bytes. cbn.
      destruct (decide (n ≤ length p)); [contradiction | cbn].
      split; [lia | reflexivity].
  - destruct (decide (48 ≤ length (zrtp.data digestOut))) as [Hd|Hd].
    + erewrite run_finalizeSkein384Context by done. split; [discriminate | lia].
    + unfold finalizeSkein384Context, hash_final, write_bytes. cbn.
      rewrite Hl. cbn. rewrite output_length.
      destruct (decide (48 ≤ length (zrtp.data digestOut))); [contradiction|].
      cbn. split; [lia | reflexivity].
  - destruct (decide (48 ≤ length (zrtp.data digestOut))) as [Hd|Hd].
    + erewrite run_closeSkein384Context by done. split; [discriminate | lia].
    + unfold closeSkein384Context, hash_final, write_bytes. cbn.
      rewrite Hl. cbn. rewrite output_length.
      destruct (decide (48 ≤ length (zrtp.data digestOut))); [contradiction|].
      cbn. split; [lia | reflexivity].
Qed.

End skein384_life_cycle_properties.

(** * Further properties of the callback proxy *)

Section callback_host_properties.
Context {Q : ZrtpQueue.Methods}.
Import ZrtpUserCallback.

Lemma run_invoke (σ : store) this q s (c : control) :
  callbacks σ !! this = Some (MkObject (Some q)) →
  queues σ !! q = Some s →
  run (invoke this c) σ
  = Done (tt, MkStore (callbacks σ) (<[q := on_queue c s]> (queues σ))).
Proof.
  intros Hthis Hq.
  destruct c; cbn [invoke on_queue];
    unfold enableZrtp, SASVerified, resetSASVerified, goClearOk, requestGoClear,
      setSigsSecret, setSrtpsSecret, setOtherSecret;
    by erewrite run_call.
Qed.

Lemma run_call_null {A} (σ : store) this (m : ZrtpQueue.t → A * ZrtpQueue.t) :
  callbacks σ !! this = Some (MkObject None) →
  run (call this m) σ = Undefined NullDereference.
Proof. intros Hthis. cbn. by rewrite Hthis. Qed.

Lemma run_call_dangling {A} (σ : store) this q
    (m : ZrtpQueue.t → A * ZrtpQueue.t) :
  callbacks σ !! this = Some (MkObject (Some q)) →
  queues σ !! q = None →
  run (call this m) σ = Undefined DanglingPointer.
Proof. intros Hthis Hq. cbn. rewrite Hthis. cbn. by rewrite Hq. Qed.

Lemma run_constructor (σ : store) this queue :
  run (constructor this queue) σ
  = Done (tt, MkStore (<[this := MkObject queue]> (callbacks σ)) (queues σ)).
Proof. reflexivity. Qed.

(** X13: the constructor takes any queue pointer without a check, and no
    method checks it later. On an object built on [nullptr] every control
    method and both getters go through the null pointer; on one built on an
    address that holds no queue they go through a dangling pointer. *)
Theorem queue_pointer_is_never_checked
    (σ : store) (this q : positive) (c : control) :
  queues σ !! q = None →
  run (constructor this None;; invoke this c) σ = Undefined NullDereference
  ∧ run (constructor this None;; getHelloHash this) σ = Undefined NullDereference
  ∧ run (constructor this None;; getSasData this) σ = Undefined NullDereference
  ∧ run (constructor this (Some q);; invoke this c) σ = Undefined DanglingPointer
  ∧ run (constructor this (Some q);; getHelloHash this) σ
    = Undefined DanglingPointer
  ∧ run (constructor this (Some q);; getSasData this) σ
    = Undefined DanglingPointer.
Proof.
  intros Hq.
  repeat split; erewrite run_bind by apply run_constructor.
  - destruct c; cbn [invoke]; apply run_call_null; apply lookup_insert_eq.
  - apply run_bind_undefined, run_call_null, lookup_insert_eq.
  - apply run_bind_undefined, run_call_null, lookup_insert_eq.
  - destruct c; cbn [invoke];
      (apply run_call_dangling with q; [apply lookup_insert_eq | exact Hq]).
  - apply run_bind_undefined.
    apply run_call_dangling with q; [apply lookup_insert_eq | exact Hq].
  - apply run_bind_undefined.
    apply run_call_dangling with q; [apply lookup_insert_eq | exact Hq].
Qed.

(** X14: the queue is shared, not owned. Two callback objects built on the
    same queue both drive it; after one of them is destroyed the other still
    does, and the queue has seen the calls of both in the order they were
    made. *)
Theorem callbacks_share_the_queue
    (σ : store) (cb1 cb2 q : positive) (s : ZrtpQueue.t) (c1 c2 c3 : control) :
  cb1 ≠ cb2 →
  queues σ !! q = Some s →
  run (constructor cb1 (Some q);;
       constructor cb2 (Some q);;
       invoke cb1 c1;;
       invoke cb2 c2;;
       destroy cb1;;
       invoke cb2 c3) σ
  = Done (tt,
          MkStore
            (delete cb1 (<[cb2 := MkObject (Some q)]>
                           (<[cb1 := MkObject (Some q)]> (callbacks σ))))
            (<[q := on_queue c3 (on_queue c2 (on_queue c1 s))]> (queues σ))).
Proof.
  intros Hne Hq. assert (cb2 ≠ cb1) as Hne' by done.
  erewrite run_bind by apply run_constructor.
  erewrite run_bind by apply run_constructor.
  erewrite run_bind; cycle 1.
  { apply (run_invoke _ cb1 q s); cbn [callbacks queues]; [|exact Hq].
    rewrite (lookup_insert_ne _ cb2 cb1) by exact Hne'. apply lookup_insert_eq. }
  erewrite run_bind; cycle 1.
  { apply (run_invoke _ cb2 q (on_queue c1 s)); cbn [callbacks queues];
      [apply lookup_insert_eq | apply lookup_insert_eq]. }
  erewrite run_bind; cycle 1.
  { unfold destroy, destructor. cbn.
    rewrite (lookup_insert_ne _ cb2 cb1) by exact Hne'.
    rewrite lookup_insert_eq. reflexivity. }
  erewrite run_invoke; cbn [callbacks queues]; cycle 1.
  { rewrite (lookup_delete_ne _ cb1 cb2) by exact Hne. apply lookup_insert_eq. }
  { apply lookup_insert_eq. }
  by rewrite !insert_insert_eq.
Qed.

(** X15: a sequence of control calls through the proxy reaches the queue
    complete and in order: the queue ends in the state its own methods, with
    the same arguments and in the same order, put it in, and nothing else in
    the store changes. *)
Theorem control_calls_compose
    (σ : store) (this q : positive) (s : ZrtpQueue.t) (cs : list control) :
  callbacks σ !! this = Some (MkObject (Some q)) →
  queues σ !! q = Some s →
  run (invoke_all this cs) σ
  = Done (tt, MkStore (callbacks σ)
                (<[q := foldl (λ s c, on_queue c s) s cs]> (queues σ))).
Proof.
  revert σ s. induction cs as [|c cs IH]; intros [cbs qs] s Hthis Hq.
  - cbn in *. by rewrite insert_id.
  - cbn [invoke_all foldl].
    erewrite run_bind by (by eapply run_invoke).
    cbn [callbacks queues] in *.
    erewrite IH; cbn [callbacks queues]; [|exact Hthis|apply lookup_insert_eq].
    by rewrite insert_insert_eq.
Qed.

End callback_host_properties.

(** * The further properties on concrete inputs *)

Section skein384_further_examples.
#[local] Existing Instance buffered_hash.
#[local] Existing Instance buffered_hash_laws.

Lemma segments_hash_is_hash_of_concatenation_witness :
  Forall2 (λ (p : list byte) n, n ≤ length p) [[x61; x62; x63]; [x64]] [2; 1]
  ∧ 48 ≤ length (replicate 50 xff)
  ∧ skein384_segments [[x61; x62; x63]; [x64]] [2; 1] (replicate 50 xff)
    = skein384 [x61; x62; x64] 3 (replicate 50 xff).
Proof.
  assert (Forall2 (λ (p : list byte) n, n ≤ length p)
            [[x61; x62; x63]; [x64]] [2; 1]) as Hall
    by (repeat constructor; cbn; lia).
  assert (48 ≤ length (replicate 50 xff)) as Hd by (cbn; lia).
  split; [exact Hall|]. split; [exact Hd|].
  exact (proj1 (segments_hash_is_hash_of_concatenation _ _ _ Hall Hd)).
Defined.

Lemma segments_update_is_one_update_witness :
  sample_heap !! 1%positive = Some (MkHashCtx (Some [x2a]))
  ∧ Forall2 (λ (p : list byte) n, n ≤ length p) [[x61; x62; x63]; [x64]] [2; 1]
  ∧ run (skein384Ctx_segments (Some 1%positive) [[x61; x62; x63]; [x64]] [2; 1])
      sample_heap
    = Done (tt, <[1%positive := MkHashCtx (Some [x2a; x61; x62; x64])]> sample_heap).
Proof.
  assert (sample_heap !! 1%positive = Some (MkHashCtx (Some [x2a]))) as Hl
    by reflexivity.
  assert (Forall2 (λ (p : list byte) n, n ≤ length p)
            [[x61; x62; x63]; [x64]] [2; 1]) as Hall
    by (repeat constructor; cbn; lia).
  split; [exact Hl|]. split; [exact Hall|].
  exact (proj2 (segments_update_is_one_update sample_heap 1%positive _ _ _ Hl Hall)).
Defined.

Lemma missing_lengths_are_out_of_bounds_witness :
  length [1] < length [[x61]; [x62]]
  ∧ sample_heap !! 1%positive = Some (MkHashCtx (Some [x2a]))
  ∧ skein384_segments [[x61]; [x62]] [1] (replicate 50 xff)
    = Undefined OutOfBounds.
Proof.
  assert (length [1] < length [[x61]; [x62]]) as Hshort by (cbn; lia).
  assert (sample_heap !! 1%positive = Some (MkHashCtx (Some [x2a]))) as Hl
    by reflexivity.
  split; [exact Hshort|]. split; [exact Hl|].
  exact (proj1 (missing_lengths_are_out_of_bounds sample_heap 1%positive _
                  [[x61]; [x62]] [1] (replicate 50 xff) Hshort Hl)).
Defined.

Lemma surplus_lengths_are_ignored_witness :
  length [1] = length [[x61]]
  ∧ skein384_segments [[x61]] ([1] ++ [7; 9]) (replicate 50 xff)
    = skein384_segments [[x61]] [1] (replicate 50 xff).
Proof.
  assert (length [1] = length [[x61]]) as Hlen by reflexivity.
  split; [exact Hlen|].
  exact (proj1 (surplus_lengths_are_ignored sample_heap None [[x61]] [1] [7; 9]
                  (replicate 50 xff) Hlen)).
Defined.

Lemma closed_context_is_gone_witness :
  sample_heap !! 1%positive = Some (MkHashCtx (Some [x2a]))
  ∧ 48 ≤ length (zrtp.data sample_out)
  ∧ [[x01]] ≠ []
  ∧ run (closeSkein384Context (Some 1%positive) sample_out;;
         initializeSkein384Context (Some 1%positive)) sample_heap
    = Undefined DanglingPointer.
Proof.
  assert (sample_heap !! 1%positive = Some (MkHashCtx (Some [x2a]))) as Hl
    by reflexivity.
  assert (48 ≤ length (zrtp.data sample_out)) as Hout by (cbn; lia).
  assert ([[x01]] ≠ []) as Hdata by discriminate.
  split; [exact Hl|]. split; [exact Hout|]. split; [exact Hdata|].
  exact (proj1 (proj2 (proj2 (proj2
    (closed_context_is_gone sample_heap 1%positive _ sample_out [] 0
       [[x01]] [1] Hl Hout Hdata))))).
Defined.

Lemma context_operations_are_local_witness :
  2%positive ≠ 1%positive
  ∧ run (skein384Ctx (Some 1%positive) [x61] 1)
      (<[2%positive := MkHashCtx (Some [x62])]> sample_heap)
    = Done (tt, <[1%positive := MkHashCtx (Some [x2a; x61])]>
                  (<[2%positive := MkHashCtx (Some [x62])]> sample_heap))
  ∧ (<[1%positive := MkHashCtx (Some [x2a; x61])]>
       (<[2%positive := MkHashCtx (Some [x62])]> sample_heap)) !! 2%positive
    = (<[2%positive := MkHashCtx (Some [x62])]> sample_heap) !! 2%positive.
Proof.
  assert (2%positive ≠ 1%positive) as Hne by discriminate.
  assert (run (skein384Ctx (Some 1%positive) [x61] 1)
            (<[2%positive := MkHashCtx (Some [x62])]> sample_heap)
          = Done (tt, <[1%positive := MkHashCtx (Some [x2a; x61])]>
                        (<[2%positive := MkHashCtx (Some [x62])]> sample_heap)))
    as Hrun by reflexivity.
  split; [exact Hne|]. split; [exact Hrun|].
  exact (proj1 (proj1 (context_operations_are_local _ _ 1%positive 2%positive Hne)
                  [x61] 1 tt Hrun)).
Defined.

Lemma two_contexts_are_independent_witness :
  2 ≤ length [x61; x62]
  ∧ 1 ≤ length [x63]
  ∧ 48 ≤ length (zrtp.data sample_out)
  ∧ ∃ c1 c2 dA dB σ',
      c1 ≠ c2
      ∧ run (ctx1 ← createSkein384Context;
             ctx2 ← createSkein384Context;
             skein384Ctx ctx1 [x61; x62] 2;;
             skein384Ctx ctx2 [x63] 1;;
             digestA ← finalizeSkein384Context ctx1 sample_out;
             digestB ← finalizeSkein384Context ctx2 sample_out;
             mret (ctx1, ctx2, digestA, digestB)) sample_heap
        = Done ((Some c1, Some c2,
                 zrtp.MkRetainedSecArray dA SHA384_DIGEST_SIZE,
                 zrtp.MkRetainedSecArray dB SHA384_DIGEST_SIZE), σ')
      ∧ skein384 [x61; x62] 2 (zrtp.data sample_out) = Done dA
      ∧ skein384 [x63] 1 (zrtp.data sample_out) = Done dB.
Proof.
  assert (2 ≤ length [x61; x62]) as Ha by (cbn; lia).
  assert (1 ≤ length [x63]) as Hb by (cbn; lia).
  assert (48 ≤ length (zrtp.data sample_out)) as Hout by (cbn; lia).
  split; [exact Ha|]. split; [exact Hb|]. split; [exact Hout|].
  exact (two_contexts_are_independent sample_heap [x61; x62] [x63] 2 1
           sample_out sample_out Ha Hb Hout Hout).
Defined.

Lemma create_close_round_trip_witness :
  2 ≤ length [x61; x62]
  ∧ 48 ≤ length (zrtp.data sample_out)
  ∧ ∃ d,
      run (ctx ← createSkein384Context;
           skein384Ctx ctx [x61; x62] 2;;
           closeSkein384Context ctx sample_out) sample_heap
      = Done (zrtp.MkRetainedSecArray d SHA384_DIGEST_SIZE, sample_heap)
      ∧ skein384 [x61; x62] 2 (zrtp.data sample_out) = Done d.
Proof.
  assert (2 ≤ length [x61; x62]) as Hn by (cbn; lia).
  assert (48 ≤ length (zrtp.data sample_out)) as Hout by (cbn; lia).
  split; [exact Hn|]. split; [exact Hout|].
  exact (create_close_round_trip sample_heap [x61; x62] 2 sample_out Hn Hout).
Defined.

Lemma initialize_is_idempotent_witness :
  HashFunctionLaws buffered_hash
  ∧ run (ctx' ← initializeSkein384Context (Some 1%positive);
         initializeSkein384Context ctx') sample_heap
    = run (initializeSkein384Context (Some 1%positive)) sample_heap.
Proof.
  split; [exact buffered_hash_laws|].
  exact (proj1 (initialize_is_idempotent sample_heap (Some 1%positive))).
Defined.

Lemma only_dataLength_bytes_are_read_witness :
  2 ≤ length [x61; x62; x63]
  ∧ 2 ≤ length [x61; x62; x7a; x7a]
  ∧ take 2 [x61; x62; x63] = take 2 [x61; x62; x7a; x7a]
  ∧ skein384 [x61; x62; x63] 2 (replicate 50 xff)
    = skein384 [x61; x62; x7a; x7a] 2 (replicate 50 xff).
Proof.
  assert (2 ≤ length [x61; x62; x63]) as Hp by (cbn; lia).
  assert (2 ≤ length [x61; x62; x7a; x7a]) as Hp' by (cbn; lia).
  assert (take 2 [x61; x62; x63] = take 2 [x61; x62; x7a; x7a]) as Heq
    by reflexivity.
  split; [exact Hp|]. split; [exact Hp'|]. split; [exact Heq|].
  exact (proj1 (only_dataLength_bytes_are_read sample_heap None _ _
                  (replicate 50 xff) 2 Hp Hp' Heq)).
Defined.

Lemma zero_length_update_is_no_op_witness :
  sample_heap !! 1%positive = Some (MkHashCtx (Some [x2a]))
  ∧ run (skein384Ctx (Some 1%positive) [x61; x62] 0) sample_heap
    = Done (tt, sample_heap).
Proof.
  assert (sample_heap !! 1%positive = Some (MkHashCtx (Some [x2a]))) as Hl
    by reflexivity.
  split; [exact Hl|].
  exact (proj1 (zero_length_update_is_no_op sample_heap 1%positive _
                  [x61; x62] [] Hl)).
Defined.

Lemma output_needs_48_bytes_witness :
  sample_heap !! 1%positive = Some (MkHashCtx (Some [x2a]))
  ∧ length (replicate 47 xff) < 48
  ∧ skein384 [x61] 1 (replicate 47 xff) = Undefined OutOfBounds.
Proof.
  assert (sample_heap !! 1%positive = Some (MkHashCtx (Some [x2a]))) as Hl
    by reflexivity.
  assert (length (replicate 47 xff) < 48) as Hd by (cbn; lia).
  split; [exact Hl|]. split; [exact Hd|].
  exact (proj2 (proj1 (output_needs_48_bytes sample_heap 1%positive _ [x61]
                         (replicate 47 xff) 1 sample_out Hl))
           (or_intror Hd)).
Defined.

End skein384_further_examples.

Section callback_further_examples.
#[local] Existing Instance recording_queue.
Import ZrtpUserCallback.

Lemma queue_pointer_is_never_checked_witness :
  queues sample_store !! 5%positive = None
  ∧ run (constructor 3%positive (Some 5%positive);;
         invoke 3%positive RequestGoClear) sample_store
    = Undefined DanglingPointer.
Proof.
  assert (queues sample_store !! 5%positive = None) as Hq by reflexivity.
  split; [exact Hq|].
  exact (proj1 (proj2 (proj2 (proj2
    (queue_pointer_is_never_checked sample_store 3%positive 5%positive
       RequestGoClear Hq))))).
Defined.

Lemma callbacks_share_the_queue_witness :
  3%positive ≠ 4%positive
  ∧ queues sample_store !! 2%positive = Some []
  ∧ run (constructor 3%positive (Some 2%positive);;
         constructor 4%positive (Some 2%positive);;
         invoke 3%positive (EnableZrtp true);;
         invoke 4%positive SasVerified;;
         destroy 3%positive;;
         invoke 4%positive RequestGoClear) sample_store
    = Done (tt,
            MkStore
              (delete 3%positive
                 (<[4%positive := MkObject (Some 2%positive)]>
                    (<[3%positive := MkObject (Some 2%positive)]>
                       (callbacks sample_store))))
              (<[2%positive := [CallSetEnableZrtp true; CallSASVerified;
                                CallRequestGoClear]]> (queues sample_store))).
Proof.
  assert (3%positive ≠ 4%positive) as Hne by discriminate.
  assert (queues sample_store !! 2%positive = Some []) as Hq by reflexivity.
  split; [exact Hne|]. split; [exact Hq|].
  exact (callbacks_share_the_queue sample_store 3%positive 4%positive 2%positive
           [] (EnableZrtp true) SasVerified RequestGoClear Hne Hq).
Defined.

Lemma control_calls_compose_witness :
  callbacks sample_store !! 1%positive = Some (MkObject (Some 2%positive))
  ∧ queues sample_store !! 2%positive = Some []
  ∧ run (invoke_all 1%positive
           [EnableZrtp true; SetSigsSecret [x01]; GoClearOk]) sample_store
    = Done (tt, MkStore (callbacks sample_store)
                  (<[2%positive := [CallSetEnableZrtp true;
                                    CallSetSigsSecret [x01]; CallGoClearOk]]>
                     (queues sample_store))).
Proof.
  assert (callbacks sample_store !! 1%positive = Some (MkObject (Some 2%positive)))
    as Hthis by reflexivity.
  assert (queues sample_store !! 2%positive = Some []) as Hq by reflexivity.
  split; [exact Hthis|]. split; [exact Hq|].
  exact (control_calls_compose sample_store 1%positive 2%positive []
           [EnableZrtp true; SetSigsSecret [x01]; GoClearOk] Hthis Hq).
Defined.

End callback_further_examples.
